(** * GRL-2023: gridding, convolution and compositing of ICOADS ship reports

    A shallow embedding of the notebooks of the repository:

    - [Process]   : "Processing COADS Data" (cleanup of the codes, exclusions);
    - [Tabulate]  : "Tabulate Grids"      (binning of the reports, [np.digitize]);
    - [Convolve]  : "Convolve Grids"      (box aggregation with [convolve2d]);
    - [Composite] : "Composite Fractions" (threshold / window overwrite loop).

    Count grids hold integers and are modelled on [Z]; the [int32] output
    arrays wrap around, which is written out in [Int32].  The [float32]
    arrays of the compositing notebook are modelled with the IEEE-754
    specification floats of the standard library ([SpecFloat]) at precision
    24 and maximal exponent 128. *)

From Stdlib Require Import ZArith List Lia Bool QArith Qround.
From Stdlib Require Import Floats.SpecFloat.
From Stdlib Require Import Sorting.Sorted.
Import ListNotations.

#[local] Open Scope Z_scope.

(* ================================================================== *)
(** ** 32-bit signed integers, as numpy's [int32] arrays hold them *)
(* ================================================================== *)

Module Int32.

Definition min_signed : Z := - 2 ^ 31.
Definition max_signed : Z := 2 ^ 31 - 1.

(** Reduction of an integer to its two's complement 32-bit value. *)
Definition wrap (x : Z) : Z := (x + 2 ^ 31) mod 2 ^ 32 - 2 ^ 31.

(** [a + b] and [a * b] of two [int32] arrays: numpy wraps silently. *)
Definition add (a b : Z) : Z := wrap (a + b).
Definition mul (a b : Z) : Z := wrap (a * b).

Definition in_range (x : Z) : Prop := min_signed <= x <= max_signed.

End Int32.

(* ================================================================== *)
(** ** Notebook "Convolve Grids" *)
(* ================================================================== *)

Module Convolve.

(** A two-dimensional array [t[lat, lon]].  The notebook holds the counts
    as whole numbers in float arrays; sums of counts are exact there (below
    [2^53]) and are integers here. *)
Definition grid : Type := Z -> Z -> Z.

(** [tin[iyr, imo, :, :]]: the monthly count grids [nr] and [n50]. *)
Definition tensor4 : Type := nat -> nat -> grid.

(** [tout[j, iyr, iseason, :, :]]: the convolved grids. *)
Definition tensor5 : Type := nat -> nat -> nat -> grid.

(** [sh = (7, 70, 5, 180, 360)]: 7 windows, 70 years, 4 seasons + 1 annual,
    180 latitude bins, 360 longitude bins. *)
Definition sh0 : nat := 7.
Definition sh1 : nat := 70.
Definition sh2 : nat := 5.
Definition sh3 : Z := 180.
Definition sh4 : Z := 360.

(** [np.zeros(sh, dtype='int32')] *)
Definition np_zeros : tensor5 := fun _ _ _ _ _ => 0.

(** [months = [[11,0,1], [2,3,4], [5,6,7], [8,9,10], [0,...,11]]]:
    DJF, MAM, JJA, SON, Annual. *)
Definition months : list (list nat) :=
  [ [11; 0; 1]; [2; 3; 4]; [5; 6; 7]; [8; 9; 10];
    [0; 1; 2; 3; 4; 5; 6; 7; 8; 9; 10; 11] ]%nat.

(** *** The kernel *)

Record kernel : Type := mk_kernel
  { rows : Z;
    cols : Z;
    coeff : Z -> Z -> Z }.

(** [np.ones((r, c))] *)
Definition np_ones (r c : Z) : kernel :=
  {| rows := r; cols := c; coeff := fun _ _ => 1 |}.

(** The kernel [a] built at the head of the window loop: square for all
    windows except the last, which is rectangular. *)
Definition a (j : nat) : kernel :=
  let ndim := 2 * Z.of_nat j + 1 in
  if (j <? sh0 - 1)%nat then np_ones ndim ndim
  else np_ones ndim (2 * ndim + 1).

(** *** [scipy.signal.convolve2d(t, a, mode='same', boundary='wrap')] *)

(** The sum of [f 0 .. f (n-1)]: the loops over the kernel rows and
    columns. *)
Fixpoint sum_upto (n : nat) (f : Z -> Z) : Z :=
  match n with
  | O => 0
  | S k => sum_upto k f + f (Z.of_nat k)
  end.

(** The circular boundary: an index that left the image on one side
    re-enters on the other. *)
Definition wrap_index (N ind : Z) : Z :=
  if ind <? 0 then N + ind
  else if N <=? ind then ind - N
  else ind.

(** Output cell [(m, n)] of the convolution of the [Ns0 x Ns1] image
    [in1] with the kernel [h], of the size of the image and centred on
    the full convolution. *)
Definition convolve2d (Ns0 Ns1 : Z) (in1 : grid) (h : kernel) : grid :=
  fun m n =>
    let new_m := m + Z.shiftr (rows h - 1) 1 in
    let new_n := n + Z.shiftr (cols h - 1) 1 in
    sum_upto (Z.to_nat (rows h)) (fun j =>
      sum_upto (Z.to_nat (cols h)) (fun k =>
        in1 (wrap_index Ns0 (new_m - j)) (wrap_index Ns1 (new_n - k))
        * coeff h j k)).

(** [.astype('int32')] on the float array of the convolution.  The array
    holds whole numbers (sums of counts), so that the truncation of the
    fraction does nothing and the cast is the identity inside the 32-bit
    range.  A value outside of the range is not reduced modulo [2^32]: the
    conversion of the float yields the smallest [int32]. *)
Definition astype_int32 (x : Z) : Z :=
  if (Int32.min_signed <=? x) && (x <=? Int32.max_signed) then x
  else Int32.min_signed.

(** *** The accumulation loop *)

(** [convolve2d(t, a, mode='same', boundary='wrap').astype('int32')*ls_mask]
    for [t = tin[iyr,imo,:,:]]: the boolean mask multiplies as 0 / 1. *)
Definition increment (t : grid) (ls_mask : Z -> Z -> bool) (j : nat) : grid :=
  fun lat lon =>
    Int32.mul (astype_int32 (convolve2d sh3 sh4 t (a j) lat lon))
              (Z.b2z (ls_mask lat lon)).

(** [tout[j, iyr, iseason, :, :] += x] *)
Definition iadd (tout : tensor5) (j iyr iseason : nat) (x : grid) : tensor5 :=
  fun j' iyr' iseason' lat lon =>
    if ((j' =? j) && (iyr' =? iyr) && (iseason' =? iseason))%nat
    then Int32.add (tout j' iyr' iseason' lat lon) (x lat lon)
    else tout j' iyr' iseason' lat lon.

(** [for imo in months[iseason]: ...] *)
Definition loop_months (tin : tensor4) (ls_mask : Z -> Z -> bool)
    (j iyr iseason : nat) (tout : tensor5) : tensor5 :=
  fold_left
    (fun tout imo => iadd tout j iyr iseason (increment (tin iyr imo) ls_mask j))
    (nth iseason months []) tout.

(** [for iseason in range(len(months)): ...] *)
Definition loop_seasons (tin : tensor4) (ls_mask : Z -> Z -> bool)
    (j iyr : nat) (tout : tensor5) : tensor5 :=
  fold_left (fun tout iseason => loop_months tin ls_mask j iyr iseason tout)
    (seq 0 (length months)) tout.

(** [for iyr in range(sh[1]): ...] *)
Definition loop_years (tin : tensor4) (ls_mask : Z -> Z -> bool)
    (j : nat) (tout : tensor5) : tensor5 :=
  fold_left (fun tout iyr => loop_seasons tin ls_mask j iyr tout)
    (seq 0 sh1) tout.

(** [for j in range(sh[0]): ...] *)
Definition loop_windows (tin : tensor4) (ls_mask : Z -> Z -> bool)
    (tout : tensor5) : tensor5 :=
  fold_left (fun tout j => loop_years tin ls_mask j tout) (seq 0 sh0) tout.

(** One pass of the outer [for i, tin in enumerate(tlist_in)] loop: the
    output array starts as zeros. *)
Definition convolve_grids (tin : tensor4) (ls_mask : Z -> Z -> bool) : tensor5 :=
  loop_windows tin ls_mask np_zeros.

(** The two passes: [nr -> nreports] and [n50 -> nprecip]. *)
Definition nreports (nr : tensor4) (ls_mask : Z -> Z -> bool) : tensor5 :=
  convolve_grids nr ls_mask.
Definition nprecip (n50 : tensor4) (ls_mask : Z -> Z -> bool) : tensor5 :=
  convolve_grids n50 ls_mask.

End Convolve.

(* ================================================================== *)
(** ** Notebook "Tabulate Grids" *)
(* ================================================================== *)

Module Tabulate.

(** One ship observation: the columns of the dataframe that the notebook
    reads.  [WW] (present weather) may be missing. *)
Record report : Type := mk_report
  { YR : Z;
    MO : Z;
    LAT : Q;
    LON : Q;
    WW : option Z }.

(** [np.arange(start, stop, step)] on integers, for a positive step. *)
Definition np_arange (start stop step : Z) : list Z :=
  map (fun i => start + Z.of_nat i * step)
      (seq 0 (Z.to_nat ((stop - start + step - 1) / step))).

Definition dlat : Z := 1.
Definition dlon : Z := 1.

(** Array of latitudes (bottom of grid cells). *)
Definition lats : list Q := map inject_Z (np_arange (-90) 90 dlat).
(** Array of longitudes (left of grid cells). *)
Definition lons : list Q := map inject_Z (np_arange 0 360 dlon).

(** [months = np.arange(1,13)] *)
Definition months : list Z := np_arange 1 13 1.

(** [np.digitize(x, bins)] for increasing [bins]: the index [i] with
    [bins[i-1] <= x < bins[i]], 0 below the first edge and [len(bins)] from
    the last edge on; that is the position of the first edge above [x]. *)
Fixpoint digitize (x : Q) (bins : list Q) : nat :=
  match bins with
  | [] => O
  | b :: bs => if Qle_bool b x then S (digitize x bs) else O
  end.

(** [l[i]] of Python: a negative index counts from the end, and an index
    out of [-len(l) .. len(l)-1] raises [IndexError] ([None]). *)
Definition getitem {A : Type} (l : list A) (i : Z) : option A :=
  let n := Z.of_nat (length l) in
  if (0 <=? i) && (i <? n) then nth_error l (Z.to_nat i)
  else if (- n <=? i) && (i <? 0) then nth_error l (Z.to_nat (n + i))
  else None.

(** [bins[np.digitize(x, bins) - 1]]: the label given to a coordinate. *)
Definition bin_label (x : Q) (bins : list Q) : option Q :=
  getitem bins (Z.of_nat (digitize x bins) - 1).

(** [df['LAT_BIN'] = lats[lat_bin-1]] and [df['LON_BIN'] = lons[lon_bin-1]] *)
Definition LAT_BIN (r : report) : option Q := bin_label (LAT r) lats.
Definition LON_BIN (r : report) : option Q := bin_label (LON r) lons.

Definition label_is (l : option Q) (edge : Q) : bool :=
  match l with
  | Some e => Qeq_bool e edge
  | None => false
  end.

(** Membership of a report in the group of key
    [(YR, MO, LAT_BIN, LON_BIN) = (yr, mo, lat_bin, lon_bin)]. *)
Definition in_group (yr mo : Z) (lat_bin lon_bin : Q) (r : report) : bool :=
  (YR r =? yr) && (MO r =? mo)
  && label_is (LAT_BIN r) lat_bin && label_is (LON_BIN r) lon_bin.

(** [df.groupby(colgroups).size()], read at one key: a key without report
    has no row, which [fillna(0)] and [reindex(..., fill_value=0)] turn
    into 0. *)
Definition groupby_size (df : list report) (yr mo : Z) (lat_bin lon_bin : Q) : nat :=
  length (filter (in_group yr mo lat_bin lon_bin) df).

(** [df.WW >= 50]: a missing value compares false. *)
Definition at_least_drizzle (r : report) : bool :=
  match WW r with
  | Some ww => 50 <=? ww
  | None => false
  end.

(** For all reports. *)
Definition df_reports (df : list report) : Z -> Z -> Q -> Q -> nat :=
  groupby_size df.
(** For anything of at least a drizzle. *)
Definition df_precip (df : list report) : Z -> Z -> Q -> Q -> nat :=
  groupby_size (filter at_least_drizzle df).

(** [years = np.arange(df.YR.min(), df.YR.max() + 1)] *)
Definition years (df : list report) : list Z :=
  match df with
  | [] => []
  | r :: rs =>
      np_arange (fold_left Z.min (map YR rs) (YR r))
                (fold_left Z.max (map YR rs) (YR r) + 1) 1
  end.

Definition at_index {A : Type} (l : list A) (i : Z) : option A :=
  if i <? 0 then None else nth_error l (Z.to_nat i).

(** The dense array [(year, month, lat, lon)] of a table of counts after
    the reindexing on [years], [months], [lats] and [lons]. *)
Definition values (df : list report) (counts : Z -> Z -> Q -> Q -> nat)
  : Convolve.tensor4 :=
  fun iyr imo ilat ilon =>
    match nth_error (years df) iyr, nth_error months imo,
          at_index lats ilat, at_index lons ilon with
    | Some yr, Some mo, Some lat_bin, Some lon_bin =>
        Z.of_nat (counts yr mo lat_bin lon_bin)
    | _, _, _, _ => 0
    end.

(** [nreports = ds_reports.total_count.values] and
    [nprecip = ds_precip.precip_count.values] *)
Definition nreports (df : list report) : Convolve.tensor4 :=
  values df (df_reports df).
Definition nprecip (df : list report) : Convolve.tensor4 :=
  values df (df_precip df).

End Tabulate.

(* ================================================================== *)
(** ** Notebook "Composite Fractions" *)
(* ================================================================== *)

Module Composite.

(** [float32]: IEEE-754 binary32. *)
Definition prec : Z := 24.
Definition emax : Z := 128.
Definition float32 : Type := spec_float.

Definition f32_div : float32 -> float32 -> float32 := SFdiv prec emax.
Definition f32_add : float32 -> float32 -> float32 := SFadd prec emax.
Definition f32_lt : float32 -> float32 -> bool := SFltb.

(** A decimal literal [num/den] of Python: the nearest binary64. *)
Definition py_float (num den : Z) : spec_float :=
  SFdiv 53 1024 (binary_normalize 53 1024 num 0 false)
                (binary_normalize 53 1024 den 0 false).

(** The cast of a Python float to [float32] that numpy makes when the
    scalar meets a [float32] array. *)
Definition to_float32 (x : spec_float) : float32 :=
  match x with
  | S754_finite sx mx ex => binary_normalize prec emax (cond_Zopp sx (Zpos mx)) ex sx
  | _ => x
  end.

(** [[0.4, 0.3, 0.2, 0.1, 0.05, 0.03, 0.02, 0.01, 0.005, 0.003, 0.002, 0.001]] *)
Definition sthresh_list : list float32 :=
  map to_float32
    [ py_float 4 10; py_float 3 10; py_float 2 10; py_float 1 10;
      py_float 5 100; py_float 3 100; py_float 2 100; py_float 1 100;
      py_float 5 1000; py_float 3 1000; py_float 2 1000; py_float 1 1000 ].

(** The bound [0.01] of the test [(f[i] + s[i]) < 0.01]. *)
Definition low_signal_bound : float32 := to_float32 (py_float 1 100).

(** [np.flip(np.arange(sh[0]))]: the windows from the widest to the
    narrowest. *)
Definition windows : list nat := rev (seq 0 Convolve.sh0).

Section Arrays.

(** A position [(year, season, lat, lon)] of the composite arrays. *)
Variable cell : Type.

(** [f = fractions[k]['f']] and [s = fractions[k]['s']], indexed by the
    window first. *)
Variable f s : nat -> cell -> float32.

(** [sratio = s/f] (a division by zero gives [inf] or [nan], and a
    warning at most). *)
Definition sratio (i : nat) (c : cell) : float32 := f32_div (s i c) (f i c).

Record state : Type := mk_state
  { fcomp : cell -> float32;
    scomp : cell -> float32;
    rcomp : cell -> Z }.

(** [np.zeros(sh[1:], dtype='float32')*np.nan] twice, and
    [np.zeros(sh[1:], dtype='int8') - 1]. *)
Definition init : state :=
  {| fcomp := fun _ => S754_nan;
     scomp := fun _ => S754_nan;
     rcomp := fun _ => -1 |}.

(** [m1 = sr < sthresh], [m2 = (f[i] + s[i]) < 0.01] and
    [m = np.logical_or(m1, m2)]. *)
Definition m1 (sthresh : float32) (i : nat) (c : cell) : bool :=
  f32_lt (sratio i c) sthresh.
Definition m2 (i : nat) (c : cell) : bool :=
  f32_lt (f32_add (f i c) (s i c)) low_signal_bound.
Definition m (sthresh : float32) (i : nat) (c : cell) : bool :=
  m1 sthresh i c || m2 i c.

(** The body of the inner loop: the three masked assignments
    [fcomp[m] = f[i][m]], [scomp[m] = s[i][m]], [rcomp[m] = i]. *)
Definition assign (st : state) (sthresh : float32) (i : nat) : state :=
  {| fcomp := fun c => if m sthresh i c then f i c else fcomp st c;
     scomp := fun c => if m sthresh i c then s i c else scomp st c;
     rcomp := fun c => if m sthresh i c then Z.of_nat i else rcomp st c |}.

(** [for i in np.flip(np.arange(sh[0])): ...] *)
Definition loop_windows (sthresh : float32) (st : state) : state :=
  fold_left (fun st i => assign st sthresh i) windows st.

(** [for sthresh in [0.4, ..., 0.001]: ...] *)
Definition loop_thresholds (st : state) : state :=
  fold_left (fun st sthresh => loop_windows sthresh st) sthresh_list st.

(** [composites[k]]: the state after all passes. *)
Definition composites : state := loop_thresholds init.

End Arrays.

End Composite.

(* ================================================================== *)
(** ** Notebook "Processing COADS Data" *)
(* ================================================================== *)

Module Process.

(** [fillna(value)] on one field: a missing value (NaN, [None]) becomes
    [value]. *)
Definition fillna (value : Z) (x : option Z) : Z :=
  match x with
  | Some v => v
  | None => value
  end.

(** [.astype(np.int8)] on a float column of whole numbers: the value is
    converted to a 32-bit integer (the smallest one when it does not fit)
    and reduced to 8 bits. *)
Definition astype_int8 (x : Z) : Z :=
  (Convolve.astype_int32 x + 2 ^ 7) mod 2 ^ 8 - 2 ^ 7.

(** A field of the columns [WW], [N], [PT] and [IX] after
    [coads_df = coads_df.fillna(-1)] and [.astype(np.int8)]: [-1] is the
    notation for a missing value. *)
Definition clean (x : option Z) : Z := astype_int8 (fillna (-1) x).

Section Exclusions.

(** The rows of the dataframe, and the four columns that the exclusions
    read. *)
Variable row : Type.
Variables PT IX N WW : row -> Z.

(** [coads_df.loc[cond]] *)
Definition loc (cond : row -> bool) (coads_df : list row) : list row :=
  filter cond coads_df.

(** The four exclusions, one after the other: missing platform types,
    explicitly automated reports, reports with neither [N] nor [WW], and
    ocean station vessels. *)
Definition exclusions (coads_df : list row) : list row :=
  let coads_df := loc (fun r => negb (PT r =? -1)) coads_df in
  let coads_df := loc (fun r => IX r <? 4) coads_df in
  let coads_df := loc (fun r => negb (N r =? -1) || negb (WW r =? -1)) coads_df in
  let coads_df := loc (fun r => negb (PT r =? 2) && negb (PT r =? 3)) coads_df in
  coads_df.

End Exclusions.

End Process.

Import Convolve.
Module T := Tabulate.
Module C := Composite.
Module P := Process.

(* ================================================================== *)
(** ** Definitions of the statements *)
(* ================================================================== *)

(** The sum of a list of integers, without wrap-around. *)
Definition sumZ (l : list Z) : Z := fold_right Z.add 0 l.

(** What the months of season [iseason] add to one cell of the slice
    [(j, iyr, iseason)], from the value [acc] the cell had. *)
Definition accumulate (tin : tensor4) (ls_mask : Z -> Z -> bool)
    (j iyr iseason : nat) (lat lon : Z) (acc : Z) : Z :=
  fold_left Int32.add
    (map (fun imo => increment (tin iyr imo) ls_mask j lat lon)
         (nth iseason months []))
    acc.

(** *** The staged pipeline of the specification *)

(** SeasonalAggregator: each season slice is the element-wise sum of its
    member months' grids for that year. *)
Definition SeasonalAggregator (tin : tensor4) (iyr iseason : nat) : grid :=
  fun lat lon => sumZ (map (fun imo => tin iyr imo lat lon) (nth iseason months [])).

(** The exact (unwrapped) number of reports of a season in the window of
    a cell. *)
Definition window_total (tin : tensor4) (j iyr iseason : nat) : grid :=
  convolve2d sh3 sh4 (SeasonalAggregator tin iyr iseason) (a j).

(** The window set: all-ones kernels of sizes [(2i+1, 2i+1)] for
    [i = 0..5] and [(13, 27)] for [i = 6]. *)
Definition window_shape (i : nat) : Z * Z :=
  if (i =? 6)%nat then (13, 27) else (2 * Z.of_nat i + 1, 2 * Z.of_nat i + 1).

Definition ones (shape : Z * Z) : kernel :=
  {| rows := fst shape; cols := snd shape; coeff := fun _ _ => 1 |}.

(** MultiWindowConvolver, staged: the circular convolution of the seasonal
    slice with the all-ones window, computed as an integer, times the mask
    of the convolver, once.  (The slice holds whole numbers, on which
    [floor] is the identity; nothing is reduced to 32 bits.) *)
Definition staged (tin : tensor4) (ls_mask : Z -> Z -> bool)
    (j iyr iseason : nat) : grid :=
  fun lat lon =>
    convolve2d sh3 sh4 (SeasonalAggregator tin iyr iseason)
               (ones (window_shape j)) lat lon
    * Z.b2z (ls_mask lat lon).

(** *** Binning *)

(** The greatest edge at or below [x]. *)
Definition greatest_edge_below (x : Q) (bins : list Q) (e : Q) : Prop :=
  In e bins /\ (e <= x)%Q /\ forall e', In e' bins -> (e' <= x)%Q -> (e' <= e)%Q.

(** Unit edges [first, first+1, ...], [n] of them. *)
Definition unit_edges (first : Z) (n : nat) : list Q :=
  map inject_Z (map (fun i => first + Z.of_nat i) (seq 0 n)).

(** The edge that labels the coordinate [x] on the unit edges
    [first .. last]: its floor, capped by the last edge; and the last edge
    again when [x] lies below the first edge. *)
Definition unit_label (first last : Z) (x : Q) : Z :=
  if Qfloor x <? first then last else Z.min last (Qfloor x).

(** The reports of year [yr] and month [mo]. *)
Definition in_year_month (yr mo : Z) (r : T.report) : bool :=
  (T.YR r =? yr) && (T.MO r =? mo).

(** The reports of year [yr] whose month belongs to season [iseason]:
    month [MO] is month index [MO - 1] of the season table. *)
Definition in_season (yr : Z) (iseason : nat) (r : T.report) : bool :=
  (T.YR r =? yr)
  && existsb (fun imo => T.MO r =? Z.of_nat imo + 1) (nth iseason Convolve.months []).

(** *** Compositing *)

(** The thresholds, descending from 0.4 to 0.001, as [float32] values. *)
Definition thresholds : list C.float32 :=
  [ C.to_float32 (C.py_float 4 10); C.to_float32 (C.py_float 3 10);
    C.to_float32 (C.py_float 2 10); C.to_float32 (C.py_float 1 10);
    C.to_float32 (C.py_float 5 100); C.to_float32 (C.py_float 3 100);
    C.to_float32 (C.py_float 2 100); C.to_float32 (C.py_float 1 100);
    C.to_float32 (C.py_float 5 1000); C.to_float32 (C.py_float 3 1000);
    C.to_float32 (C.py_float 2 1000); C.to_float32 (C.py_float 1 1000) ].

(** The candidate passes in the fixed iteration order: thresholds outer,
    descending from 0.4 to 0.001; windows inner, from index 6 down to 0. *)
Definition passes : list (C.float32 * nat) :=
  flat_map (fun sthresh => map (pair sthresh) [6; 5; 4; 3; 2; 1; 0]%nat) thresholds.

(** A pass is eligible at a cell when [s[window]/f[window] < threshold] or
    [f[window] + s[window] < 0.01]. *)
Definition eligible {cell : Type} (f s : nat -> cell -> C.float32) (c : cell)
    (p : C.float32 * nat) : bool :=
  let '(sthresh, window) := p in
  SFltb (SFdiv C.prec C.emax (s window c) (f window c)) sthresh
  || SFltb (SFadd C.prec C.emax (f window c) (s window c))
           (C.to_float32 (C.py_float 1 100)).

(** The last eligible pass of a cell, if any. *)
Definition last_eligible {cell : Type} (f s : nat -> cell -> C.float32) (c : cell)
  : option (C.float32 * nat) :=
  find (eligible f s c) (rev passes).

(** The three composite values of a cell. *)
Definition at_cell {cell : Type} (st : C.state cell) (c : cell)
  : C.float32 * C.float32 * Z :=
  (C.fcomp cell st c, C.scomp cell st c, C.rcomp cell st c).

(** A value that is not below zero: a standard error. *)
Definition not_negative (x : C.float32) : Prop := SFltb x (S754_zero false) = false.

(** A zero of either sign. *)
Definition is_zero (x : C.float32) : bool :=
  match x with
  | S754_zero _ => true
  | _ => false
  end.

(** *** The windows as boxes *)

(** The half-height and the half-width of window [j]: [(j, j)] for the
    square windows, [(j, 2j+1)] for the last one. *)
Definition half_window (j : nat) : Z * Z :=
  if (j <? sh0 - 1)%nat then (Z.of_nat j, Z.of_nat j)
  else (Z.of_nat j, 2 * Z.of_nat j + 1).

(** The sum of [t] over the box of [(2p+1) x (2q+1)] cells centred on
    [(lat, lon)], rows and columns taken modulo the size of the grid. *)
Definition box_sum (t : grid) (p q lat lon : Z) : Z :=
  sum_upto (Z.to_nat (2 * p + 1)) (fun d =>
    sum_upto (Z.to_nat (2 * q + 1)) (fun e =>
      t ((lat - p + d) mod sh3) ((lon - q + e) mod sh4))).

(** The sum of a grid over its [180 x 360] cells. *)
Definition grid_total (t : grid) : Z :=
  sum_upto (Z.to_nat sh3) (fun lat => sum_upto (Z.to_nat sh4) (fun lon => t lat lon)).

(** Whether [(j, iyr, iseason)] is a slice of the output arrays. *)
Definition in_shape (j iyr iseason : nat) : bool :=
  ((j <? sh0) && (iyr <? sh1) && (iseason <? sh2))%nat.

(** *** Exclusions *)

(** A row that passes the four exclusions. *)
Definition kept {row : Type} (PT IX N WW : row -> Z) (r : row) : bool :=
  negb (PT r =? -1) && (IX r <? 4)
  && (negb (N r =? -1) || negb (WW r =? -1))
  && (negb (PT r =? 2) && negb (PT r =? 3)).

(** A field of the CSV file that is empty or holds a code that fits
    [int8] and is not negative. *)
Definition valid_code (x : option Z) : Prop :=
  match x with
  | Some v => 0 <= v <= 127
  | None => True
  end.

(** A row as its four codes [(PT, IX, N, WW)]. *)
Definition codes : Type := Z * Z * Z * Z.
Definition codes_PT (r : codes) : Z := fst (fst (fst r)).
Definition codes_IX (r : codes) : Z := snd (fst (fst r)).
Definition codes_N (r : codes) : Z := snd (fst r).
Definition codes_WW (r : codes) : Z := snd r.

(** *** Example inputs *)

(** A cell whose fraction is the negative zero and whose standard error is
    0.5, in every window. *)
Definition f_negative_zero : nat -> unit -> C.float32 := fun _ _ => S754_zero true.
Definition s_half : nat -> unit -> C.float32 := fun _ _ => C.to_float32 (C.py_float 5 10).

(** One report, in January of the first year, in the cell [(10, 20)]. *)
Definition one_report : tensor4 :=
  fun iyr imo lat lon =>
    if ((iyr =? 0) && (imo =? 0))%nat && (lat =? 10) && (lon =? 20) then 1 else 0.

(** A mask for which the cell [(10, 20)] is land, and one for which it is
    the only ocean cell. *)
Definition land_at_10_20 : Z -> Z -> bool := fun lat lon => (lat =? 10) && (lon =? 20).

Definition ocean_at_10_20 : Z -> Z -> bool := fun lat lon => negb ((lat =? 10) && (lon =? 20)).

(** Inputs on which the accumulator overflows: [2^30] reports, one of them
    precipitating, in the cell [(0, 0)] in each month of the first year. *)
Definition nr_overflow : tensor4 :=
  fun iyr _ lat lon => if (iyr =? 0)%nat && (lat =? 0) && (lon =? 0) then 2 ^ 30 else 0.

Definition n50_overflow : tensor4 :=
  fun iyr _ lat lon => if (iyr =? 0)%nat && (lat =? 0) && (lon =? 0) then 1 else 0.

(** Two reports of January 1950 at 45.3N 0.5E, one of them with rain. *)
Definition two_reports : list T.report :=
  [ T.mk_report 1950 1 (453 # 10) (5 # 10) (Some 60);
    T.mk_report 1950 1 (453 # 10) (5 # 10) (Some 2) ].

(* ================================================================== *)
(** ** Arithmetic of the 32-bit accumulator *)
(* ================================================================== *)

Lemma wrap_in_range (x : Z) : Int32.in_range (Int32.wrap x).
Proof.
  unfold Int32.in_range, Int32.wrap, Int32.min_signed, Int32.max_signed.
  pose proof (Z.mod_pos_bound (x + 2 ^ 31) (2 ^ 32) ltac:(lia)). lia.
Qed.

Lemma wrap_small (x : Z) : Int32.in_range x -> Int32.wrap x = x.
Proof.
  unfold Int32.in_range, Int32.wrap, Int32.min_signed, Int32.max_signed.
  intros H. rewrite Z.mod_small by lia. lia.
Qed.

Lemma wrap_add_l (x y : Z) : Int32.wrap (Int32.wrap x + y) = Int32.wrap (x + y).
Proof.
  unfold Int32.wrap. f_equal.
  replace ((x + 2 ^ 31) mod 2 ^ 32 - 2 ^ 31 + y + 2 ^ 31)
    with ((x + 2 ^ 31) mod 2 ^ 32 + y) by lia.
  rewrite Zplus_mod_idemp_l. f_equal. lia.
Qed.

Lemma wrap_add_r (x y : Z) : Int32.wrap (x + Int32.wrap y) = Int32.wrap (x + y).
Proof. rewrite Z.add_comm, wrap_add_l. f_equal. lia. Qed.

Lemma wrap_idem (x : Z) : Int32.wrap (Int32.wrap x) = Int32.wrap x.
Proof. apply wrap_small, wrap_in_range. Qed.

Lemma add_wrap_wrap (x y : Z) :
  Int32.add (Int32.wrap x) (Int32.wrap y) = Int32.wrap (x + y).
Proof. unfold Int32.add. rewrite wrap_add_l, wrap_add_r. reflexivity. Qed.

(** An [int32] accumulation is the wrapped exact sum. *)
Lemma fold_add_wrap (l : list Z) :
  forall acc, Int32.wrap (fold_left Int32.add l acc) = Int32.wrap (acc + sumZ l).
Proof.
  induction l as [|x l IH]; intros acc; simpl.
  - f_equal. lia.
  - rewrite IH. unfold Int32.add. rewrite wrap_add_l. f_equal. lia.
Qed.

Lemma fold_add_in_range (l : list Z) :
  forall acc, Int32.in_range acc -> Int32.in_range (fold_left Int32.add l acc).
Proof.
  induction l as [|x l IH]; intros acc H; simpl; [exact H|].
  apply IH. apply wrap_in_range.
Qed.

Lemma fold_add_0 (l : list Z) : fold_left Int32.add l 0 = Int32.wrap (sumZ l).
Proof.
  rewrite <- (wrap_small (fold_left Int32.add l 0)).
  - rewrite fold_add_wrap. reflexivity.
  - apply fold_add_in_range. unfold Int32.in_range, Int32.min_signed, Int32.max_signed. lia.
Qed.

Lemma astype_int32_in_range (x : Z) : Int32.in_range (astype_int32 x).
Proof.
  unfold astype_int32, Int32.in_range, Int32.min_signed, Int32.max_signed.
  destruct (Z.leb_spec (- 2 ^ 31) x), (Z.leb_spec x (2 ^ 31 - 1)); cbn [andb]; lia.
Qed.

Lemma astype_int32_small (x : Z) : Int32.in_range x -> astype_int32 x = x.
Proof.
  unfold astype_int32, Int32.in_range, Int32.min_signed, Int32.max_signed.
  intros H.
  destruct (Z.leb_spec (- 2 ^ 31) x), (Z.leb_spec x (2 ^ 31 - 1)); cbn [andb]; lia.
Qed.

(** The masked increment, cell by cell: the cast window sum where the
    mask is [True], zero where it is [False]. *)
Lemma increment_eq (t : grid) (ls_mask : Z -> Z -> bool) (j : nat) (lat lon : Z) :
  increment t ls_mask j lat lon =
  if ls_mask lat lon then astype_int32 (convolve2d sh3 sh4 t (a j) lat lon) else 0.
Proof.
  unfold increment, Int32.mul.
  destruct (ls_mask lat lon); simpl Z.b2z.
  - rewrite Z.mul_1_r. apply wrap_small, astype_int32_in_range.
  - rewrite Z.mul_0_r. reflexivity.
Qed.

(* ================================================================== *)
(** ** The four nested loops, slice by slice *)
(* ================================================================== *)

(** A loop over distinct keys of which one step only, that of key [k0],
    changes what is observed. *)
Section KeyedFold.

Variables (T : Type) (obs : T -> Z) (step : T -> nat -> T) (k0 : nat) (F : Z -> Z).
Hypothesis miss : forall k t, k <> k0 -> obs (step t k) = obs t.
Hypothesis hit : forall t, obs (step t k0) = F (obs t).

Lemma fold_left_keyed (l : list nat) :
  NoDup l ->
  forall t, obs (fold_left step l t) =
            if existsb (Nat.eqb k0) l then F (obs t) else obs t.
Proof.
  induction 1 as [|k l Hk Hnd IH]; intros t; simpl; [reflexivity|].
  rewrite IH. destruct (Nat.eqb_spec k0 k) as [->|Hne]; simpl.
  - rewrite hit.
    destruct (existsb (Nat.eqb k) l) eqn:E; [|reflexivity].
    apply existsb_exists in E. destruct E as [x [Hx Hxk]].
    apply Nat.eqb_eq in Hxk. subst x. contradiction.
  - rewrite miss by congruence. reflexivity.
Qed.

End KeyedFold.

Lemma existsb_eqb_seq (k n : nat) : existsb (Nat.eqb k) (seq 0 n) = (k <? n)%nat.
Proof.
  destruct (Nat.ltb_spec k n) as [H|H].
  - apply existsb_exists. exists k. split; [apply in_seq; lia | apply Nat.eqb_refl].
  - destruct (existsb (Nat.eqb k) (seq 0 n)) eqn:E; [|reflexivity].
    apply existsb_exists in E. destruct E as [x [Hx Hxk]].
    apply Nat.eqb_eq in Hxk. subst x. apply in_seq in Hx. lia.
Qed.

Lemma loop_months_at tin ls_mask j iyr iseason tout j' iyr' iseason' lat lon :
  loop_months tin ls_mask j iyr iseason tout j' iyr' iseason' lat lon =
  if ((j' =? j) && (iyr' =? iyr) && (iseason' =? iseason))%nat
  then accumulate tin ls_mask j iyr iseason lat lon (tout j' iyr' iseason' lat lon)
  else tout j' iyr' iseason' lat lon.
Proof.
  unfold loop_months, accumulate.
  generalize (nth iseason months []) as l. intros l. revert tout.
  induction l as [|imo l IH]; intros tout; simpl.
  - destruct ((j' =? j) && (iyr' =? iyr) && (iseason' =? iseason))%nat; reflexivity.
  - rewrite IH. unfold iadd.
    destruct ((j' =? j) && (iyr' =? iyr) && (iseason' =? iseason))%nat; reflexivity.
Qed.

Lemma loop_seasons_at tin ls_mask j iyr tout j' iyr' iseason' lat lon :
  loop_seasons tin ls_mask j iyr tout j' iyr' iseason' lat lon =
  if ((j' =? j) && (iyr' =? iyr) && (iseason' <? sh2))%nat
  then accumulate tin ls_mask j iyr iseason' lat lon (tout j' iyr' iseason' lat lon)
  else tout j' iyr' iseason' lat lon.
Proof.
  unfold loop_seasons.
  rewrite (fold_left_keyed tensor5 (fun t => t j' iyr' iseason' lat lon) _ iseason'
             (fun acc => if ((j' =? j) && (iyr' =? iyr))%nat
                         then accumulate tin ls_mask j iyr iseason' lat lon acc
                         else acc)).
  - rewrite existsb_eqb_seq. change (length months) with sh2.
    destruct ((j' =? j) && (iyr' =? iyr))%nat, (iseason' <? sh2)%nat; reflexivity.
  - intros k t Hk. rewrite loop_months_at.
    destruct (Nat.eqb_spec iseason' k); [congruence|].
    rewrite andb_false_r. reflexivity.
  - intros t. rewrite loop_months_at, Nat.eqb_refl, andb_true_r. reflexivity.
  - apply seq_NoDup.
Qed.

Lemma loop_years_at tin ls_mask j tout j' iyr' iseason' lat lon :
  loop_years tin ls_mask j tout j' iyr' iseason' lat lon =
  if ((j' =? j) && (iyr' <? sh1) && (iseason' <? sh2))%nat
  then accumulate tin ls_mask j iyr' iseason' lat lon (tout j' iyr' iseason' lat lon)
  else tout j' iyr' iseason' lat lon.
Proof.
  unfold loop_years.
  rewrite (fold_left_keyed tensor5 (fun t => t j' iyr' iseason' lat lon) _ iyr'
             (fun acc => if ((j' =? j) && (iseason' <? sh2))%nat
                         then accumulate tin ls_mask j iyr' iseason' lat lon acc
                         else acc)).
  - rewrite existsb_eqb_seq.
    destruct (j' =? j)%nat, (iyr' <? sh1)%nat, (iseason' <? sh2)%nat; reflexivity.
  - intros k t Hk. rewrite loop_seasons_at.
    destruct (Nat.eqb_spec iyr' k); [congruence|].
    rewrite andb_false_r. reflexivity.
  - intros t. rewrite loop_seasons_at, Nat.eqb_refl, andb_true_r. reflexivity.
  - apply seq_NoDup.
Qed.

Lemma loop_windows_at tin ls_mask tout j' iyr' iseason' lat lon :
  loop_windows tin ls_mask tout j' iyr' iseason' lat lon =
  if ((j' <? sh0) && (iyr' <? sh1) && (iseason' <? sh2))%nat
  then accumulate tin ls_mask j' iyr' iseason' lat lon (tout j' iyr' iseason' lat lon)
  else tout j' iyr' iseason' lat lon.
Proof.
  unfold loop_windows.
  rewrite (fold_left_keyed tensor5 (fun t => t j' iyr' iseason' lat lon) _ j'
             (fun acc => if ((iyr' <? sh1) && (iseason' <? sh2))%nat
                         then accumulate tin ls_mask j' iyr' iseason' lat lon acc
                         else acc)).
  - rewrite existsb_eqb_seq.
    destruct (j' <? sh0)%nat, (iyr' <? sh1)%nat, (iseason' <? sh2)%nat; reflexivity.
  - intros k t Hk. rewrite loop_years_at.
    destruct (Nat.eqb_spec j' k); [congruence|]. reflexivity.
  - intros t. rewrite loop_years_at, Nat.eqb_refl. reflexivity.
  - apply seq_NoDup.
Qed.

(** Every slice of the output is the accumulation, from zero, of the
    increments of the months of its season, in its own year. *)
Lemma convolve_grids_at tin ls_mask j iyr iseason lat lon :
  convolve_grids tin ls_mask j iyr iseason lat lon =
  if ((j <? sh0) && (iyr <? sh1) && (iseason <? sh2))%nat
  then accumulate tin ls_mask j iyr iseason lat lon 0
  else 0.
Proof. unfold convolve_grids. rewrite loop_windows_at. reflexivity. Qed.

(* ================================================================== *)
(** ** Linearity of the convolution *)
(* ================================================================== *)

Lemma sum_upto_ext (n : nat) (f g : Z -> Z) :
  (forall i, f i = g i) -> sum_upto n f = sum_upto n g.
Proof. intros H. induction n as [|n IH]; simpl; [reflexivity|]. rewrite IH, H. reflexivity. Qed.

Lemma sum_upto_add (n : nat) (f g : Z -> Z) :
  sum_upto n (fun i => f i + g i) = sum_upto n f + sum_upto n g.
Proof. induction n as [|n IH]; simpl; lia. Qed.

Lemma sum_upto_zero (n : nat) : sum_upto n (fun _ => 0) = 0.
Proof. induction n as [|n IH]; simpl; lia. Qed.

Lemma sum_upto_le (n : nat) (f g : Z -> Z) :
  (forall i, f i <= g i) -> sum_upto n f <= sum_upto n g.
Proof. intros H. induction n as [|n IH]; simpl; [lia|]. specialize (H (Z.of_nat n)). lia. Qed.

Lemma convolve2d_add Ns0 Ns1 (t1 t2 : grid) (h : kernel) (m n : Z) :
  convolve2d Ns0 Ns1 (fun lat lon => t1 lat lon + t2 lat lon) h m n =
  convolve2d Ns0 Ns1 t1 h m n + convolve2d Ns0 Ns1 t2 h m n.
Proof.
  unfold convolve2d. cbv zeta. rewrite <- sum_upto_add.
  apply sum_upto_ext; intros i. rewrite <- sum_upto_add.
  apply sum_upto_ext; intros k. lia.
Qed.

Lemma convolve2d_zero Ns0 Ns1 (h : kernel) (m n : Z) :
  convolve2d Ns0 Ns1 (fun _ _ => 0) h m n = 0.
Proof.
  unfold convolve2d. cbv zeta.
  rewrite (sum_upto_ext _ _ (fun _ => 0)); [apply sum_upto_zero|].
  intros i. rewrite (sum_upto_ext _ _ (fun _ => 0)); [apply sum_upto_zero|].
  intros k. lia.
Qed.

Lemma convolve2d_ext Ns0 Ns1 (t1 t2 : grid) (h : kernel) (m n : Z) :
  (forall lat lon, t1 lat lon = t2 lat lon) ->
  convolve2d Ns0 Ns1 t1 h m n = convolve2d Ns0 Ns1 t2 h m n.
Proof.
  intros H. unfold convolve2d. cbv zeta.
  apply sum_upto_ext; intros i. apply sum_upto_ext; intros k. rewrite H. reflexivity.
Qed.

Lemma convolve2d_sumZ Ns0 Ns1 (g : nat -> grid) (h : kernel) (m n : Z) (l : list nat) :
  convolve2d Ns0 Ns1 (fun lat lon => sumZ (map (fun i => g i lat lon) l)) h m n =
  sumZ (map (fun i => convolve2d Ns0 Ns1 (g i) h m n) l).
Proof.
  induction l as [|i l IH]; simpl.
  - apply convolve2d_zero.
  - rewrite <- IH. apply (convolve2d_add Ns0 Ns1 (g i)).
Qed.

Lemma sum_upto_nonneg (n : nat) (f : Z -> Z) :
  (forall i, 0 <= f i) -> 0 <= sum_upto n f.
Proof. intros H. induction n as [|n IH]; simpl; [lia|]. specialize (H (Z.of_nat n)). lia. Qed.

Lemma sumZ_map_le {A : Type} (f g : A -> Z) (l : list A) :
  (forall x, f x <= g x) -> sumZ (map f l) <= sumZ (map g l).
Proof. intros H. induction l as [|x l IH]; simpl; [lia|]. specialize (H x). lia. Qed.

Lemma coeff_a (j : nat) (r c : Z) : coeff (a j) r c = 1.
Proof. unfold a. destruct (j <? sh0 - 1)%nat; reflexivity. Qed.

(** The window total grows with the counts. *)
Lemma window_total_le (t1 t2 : tensor4) (j iyr iseason : nat) (lat lon : Z) :
  (forall imo la lo, t1 iyr imo la lo <= t2 iyr imo la lo) ->
  window_total t1 j iyr iseason lat lon <= window_total t2 j iyr iseason lat lon.
Proof.
  intros H. unfold window_total, convolve2d. cbv zeta.
  apply sum_upto_le; intros r. apply sum_upto_le; intros c.
  rewrite !coeff_a, !Z.mul_1_r. unfold SeasonalAggregator.
  apply sumZ_map_le. intros imo. apply H.
Qed.

Lemma window_total_zero (j iyr iseason : nat) (lat lon : Z) :
  window_total (fun _ _ _ _ => 0) j iyr iseason lat lon = 0.
Proof.
  unfold window_total. erewrite convolve2d_ext; [apply convolve2d_zero|].
  intros la lo. unfold SeasonalAggregator.
  induction (nth iseason months []) as [|x l IH]; simpl; lia.
Qed.

Lemma convolve2d_nonneg (t : grid) (j : nat) (lat lon : Z) :
  (forall la lo, 0 <= t la lo) -> 0 <= convolve2d sh3 sh4 t (a j) lat lon.
Proof.
  intros H. unfold convolve2d. cbv zeta.
  apply sum_upto_nonneg; intros r. apply sum_upto_nonneg; intros c.
  rewrite coeff_a, Z.mul_1_r. apply H.
Qed.

Lemma window_total_months (tin : tensor4) (j iyr iseason : nat) (lat lon : Z) :
  window_total tin j iyr iseason lat lon =
  sumZ (map (fun imo => convolve2d sh3 sh4 (tin iyr imo) (a j) lat lon)
            (nth iseason months [])).
Proof.
  unfold window_total, SeasonalAggregator.
  apply (convolve2d_sumZ sh3 sh4 (fun imo => tin iyr imo)).
Qed.

Lemma sumZ_in_le (l : list Z) (x : Z) :
  (forall y, In y l -> 0 <= y) -> In x l -> x <= sumZ l.
Proof.
  induction l as [|y l IH]; intros H Hx; [destruct Hx|].
  cbn [sumZ fold_right]. fold (sumZ l).
  assert (0 <= sumZ l).
  { clear IH Hx. induction l as [|z l IH]; cbn [sumZ fold_right]; [lia|].
    fold (sumZ l).
    pose proof (H z (or_intror (or_introl eq_refl))).
    assert (0 <= sumZ l) by (apply IH; intros w Hw; apply H; simpl in *; tauto).
    lia. }
  destruct Hx as [->|Hx].
  - lia.
  - pose proof (H y (or_introl eq_refl)).
    assert (x <= sumZ l) by (apply IH; [intros w Hw; apply H; right; exact Hw | exact Hx]).
    lia.
Qed.

(** For non-negative counts whose window total fits 32 bits, every month
    of the season has a window total that fits 32 bits. *)
Lemma monthly_in_range tin j iyr iseason lat lon imo :
  (forall imo la lo, 0 <= tin iyr imo la lo) ->
  window_total tin j iyr iseason lat lon <= Int32.max_signed ->
  In imo (nth iseason months []) ->
  Int32.in_range (convolve2d sh3 sh4 (tin iyr imo) (a j) lat lon).
Proof.
  intros H0 Hmax Hin. rewrite window_total_months in Hmax.
  pose proof (convolve2d_nonneg (tin iyr imo) j lat lon (H0 imo)) as Hge.
  assert (Hle : convolve2d sh3 sh4 (tin iyr imo) (a j) lat lon
                <= sumZ (map (fun imo => convolve2d sh3 sh4 (tin iyr imo) (a j) lat lon)
                             (nth iseason months []))).
  { apply sumZ_in_le.
    - intros y Hy. apply in_map_iff in Hy. destruct Hy as [i [<- _]].
      apply convolve2d_nonneg, H0.
    - apply (in_map (fun imo => convolve2d sh3 sh4 (tin iyr imo) (a j) lat lon)), Hin. }
  unfold Int32.in_range, Int32.min_signed, Int32.max_signed in *. lia.
Qed.

(** Where the mask is [False], nothing is accumulated. *)
Lemma accumulate_mask_false tin ls_mask j iyr iseason lat lon :
  ls_mask lat lon = false ->
  accumulate tin ls_mask j iyr iseason lat lon 0 = 0.
Proof.
  intros E. unfold accumulate. rewrite fold_add_0.
  replace (sumZ _) with 0; [reflexivity|].
  induction (nth iseason months []) as [|imo l IH]; simpl; [reflexivity|].
  rewrite increment_eq, E, <- IH. reflexivity.
Qed.

(** The accumulated slice, in closed form, for non-negative counts whose
    window total fits 32 bits. *)
Lemma accumulate_0 tin ls_mask j iyr iseason lat lon :
  (forall imo la lo, 0 <= tin iyr imo la lo) ->
  window_total tin j iyr iseason lat lon <= Int32.max_signed ->
  accumulate tin ls_mask j iyr iseason lat lon 0 =
  if ls_mask lat lon then Int32.wrap (window_total tin j iyr iseason lat lon) else 0.
Proof.
  intros H0 Hmax.
  destruct (ls_mask lat lon) eqn:E; [|apply accumulate_mask_false, E].
  unfold accumulate. rewrite fold_add_0, window_total_months. f_equal. f_equal.
  apply map_ext_in. intros imo Hin.
  rewrite increment_eq, E. apply astype_int32_small.
  apply (monthly_in_range tin j iyr iseason lat lon imo H0 Hmax Hin).
Qed.

Lemma window_total_nonneg tin j iyr iseason lat lon :
  (forall imo la lo, 0 <= tin iyr imo la lo) ->
  0 <= window_total tin j iyr iseason lat lon.
Proof.
  intros H0. rewrite <- (window_total_zero j iyr iseason lat lon).
  apply window_total_le. intros. apply H0.
Qed.

(** The kernels that the loop builds are those of the window set. *)
Lemma a_window_shape (j : nat) : (j < sh0)%nat -> a j = ones (window_shape j).
Proof.
  intros H. unfold sh0 in H.
  do 7 (destruct j as [|j]; [reflexivity|]). lia.
Qed.

Lemma staged_eq tin ls_mask j iyr iseason lat lon :
  (j < sh0)%nat ->
  staged tin ls_mask j iyr iseason lat lon =
  window_total tin j iyr iseason lat lon * Z.b2z (ls_mask lat lon).
Proof.
  intros Hj. unfold staged, window_total.
  rewrite <- (a_window_shape j Hj). reflexivity.
Qed.

(* ================================================================== *)
(** ** Properties of the convolved grids *)
(* ================================================================== *)

(** C3, as stated, fails: with [2^30] reports in a cell in each of
    December, January and February, the month-by-month accumulation wraps
    around in [int32] and gives [-2^30], while the staged pipeline, computed
    as integers, gives [3 * 2^30]. *)
Lemma fused_differs_from_staged_on_overflow :
  convolve_grids nr_overflow (fun _ _ => true) 0%nat 0%nat 0%nat 0 0 = - 2 ^ 30 /\
  staged nr_overflow (fun _ _ => true) 0%nat 0%nat 0%nat 0 0 = 3 * 2 ^ 30 /\
  convolve_grids nr_overflow (fun _ _ => true) 0%nat 0%nat 0%nat 0 0
  <> staged nr_overflow (fun _ _ => true) 0%nat 0%nat 0%nat 0 0.
Proof.
  assert (E1 : convolve_grids nr_overflow (fun _ _ => true) 0%nat 0%nat 0%nat 0 0
               = - 2 ^ 30) by (vm_compute; reflexivity).
  assert (E2 : staged nr_overflow (fun _ _ => true) 0%nat 0%nat 0%nat 0 0
               = 3 * 2 ^ 30) by (vm_compute; reflexivity).
  rewrite E1, E2. repeat split. discriminate.
Qed.

(** C3 (amended). Inside the output shape, for non-negative counts whose
    seasonal window total at the cell fits the signed 32-bit range, the
    slice that the notebook accumulates month by month (convolve, cast to
    [int32], mask, add) equals the staged pipeline: sum the member months
    of the season first, convolve the seasonal slice once as integers, and
    mask once, with the same mask. *)
Theorem fused_equals_staged (tin : tensor4) (ls_mask : Z -> Z -> bool)
    (j iyr iseason : nat) (lat lon : Z) :
  (j < sh0)%nat -> (iyr < sh1)%nat -> (iseason < sh2)%nat ->
  (forall imo la lo, 0 <= tin iyr imo la lo) ->
  window_total tin j iyr iseason lat lon <= Int32.max_signed ->
  convolve_grids tin ls_mask j iyr iseason lat lon =
  staged tin ls_mask j iyr iseason lat lon.
Proof.
  intros Hj Hy Hs H0 Hmax.
  rewrite convolve_grids_at, (staged_eq _ _ _ _ _ _ _ Hj).
  apply Nat.ltb_lt in Hj, Hy, Hs. rewrite Hj, Hy, Hs. cbn [andb].
  rewrite accumulate_0 by assumption.
  pose proof (window_total_nonneg tin j iyr iseason lat lon H0).
  destruct (ls_mask lat lon); simpl Z.b2z; [|lia].
  rewrite Z.mul_1_r. apply wrap_small.
  unfold Int32.in_range, Int32.min_signed, Int32.max_signed in *. lia.
Qed.

Lemma fused_equals_staged_witness :
  (6 < sh0)%nat /\ (0 < sh1)%nat /\ (0 < sh2)%nat /\
  (forall imo la lo, 0 <= one_report 0%nat imo la lo) /\
  window_total one_report 6%nat 0%nat 0%nat 16 33 <= Int32.max_signed /\
  convolve_grids one_report (fun _ _ => true) 6%nat 0%nat 0%nat 16 33 = 1 /\
  staged one_report (fun _ _ => true) 6%nat 0%nat 0%nat 16 33 = 1.
Proof.
  assert (H0 : (6 < sh0)%nat) by (unfold sh0; lia).
  assert (H1 : (0 < sh1)%nat) by (unfold sh1; lia).
  assert (H2 : (0 < sh2)%nat) by (unfold sh2; lia).
  assert (H3 : forall imo la lo, 0 <= one_report 0%nat imo la lo).
  { intros imo la lo. unfold one_report.
    destruct ((0 =? 0)%nat && (imo =? 0)%nat && (la =? 10) && (lo =? 20)); lia. }
  assert (H4 : window_total one_report 6%nat 0%nat 0%nat 16 33 <= Int32.max_signed)
    by (vm_compute; discriminate).
  repeat (split; [assumption|]).
  pose proof (fused_equals_staged one_report (fun _ _ => true)
                6%nat 0%nat 0%nat 16 33 H0 H1 H2 H3 H4) as E.
  assert (E2 : staged one_report (fun _ _ => true) 6%nat 0%nat 0%nat 16 33 = 1)
    by (vm_compute; reflexivity).
  split; [rewrite E; exact E2 | exact E2].
Defined.

(** C5. In every window, year and cell, the Annual slice is the ([int32])
    sum of the four seasonal slices of the same year. *)
Theorem annual_is_sum_of_seasons (tin : tensor4) (ls_mask : Z -> Z -> bool)
    (j iyr : nat) (lat lon : Z) :
  let out := fun iseason => convolve_grids tin ls_mask j iyr iseason lat lon in
  out 4%nat =
  Int32.add (Int32.add (Int32.add (out 0%nat) (out 1%nat)) (out 2%nat)) (out 3%nat).
Proof.
  cbv beta zeta. rewrite !convolve_grids_at.
  destruct ((j <? sh0)%nat && (iyr <? sh1)%nat); cbn [andb]; [|reflexivity].
  change (4 <? sh2)%nat with true. change (0 <? sh2)%nat with true.
  change (1 <? sh2)%nat with true. change (2 <? sh2)%nat with true.
  change (3 <? sh2)%nat with true. cbv iota.
  unfold accumulate. rewrite !fold_add_0, !add_wrap_wrap. f_equal.
  cbn [nth months map sumZ fold_right]. lia.
Qed.

Lemma increment_ext (t t' : grid) (ls_mask : Z -> Z -> bool) (j : nat) (lat lon : Z) :
  (forall la lo, t' la lo = t la lo) ->
  increment t' ls_mask j lat lon = increment t ls_mask j lat lon.
Proof.
  intros H. unfold increment. f_equal. f_equal. apply convolve2d_ext, H.
Qed.

(** C9. The DJF slice labelled with year index [Y] is accumulated from the
    December, January and February grids (month indices 11, 0, 1) at the
    same year index [Y], and from nothing else: any other input that agrees
    on these three grids gives the same slice. *)
Theorem djf_from_same_year_index (tin : tensor4) (ls_mask : Z -> Z -> bool)
    (j Y : nat) (lat lon : Z) :
  (j < sh0)%nat -> (Y < sh1)%nat ->
  convolve_grids tin ls_mask j Y 0%nat lat lon =
    Int32.add
      (Int32.add
         (Int32.add 0 (increment (tin Y 11%nat) ls_mask j lat lon))
         (increment (tin Y 0%nat) ls_mask j lat lon))
      (increment (tin Y 1%nat) ls_mask j lat lon)
  /\ forall tin' : tensor4,
       (forall imo la lo, In imo [11; 0; 1]%nat -> tin' Y imo la lo = tin Y imo la lo) ->
       convolve_grids tin' ls_mask j Y 0%nat lat lon =
       convolve_grids tin ls_mask j Y 0%nat lat lon.
Proof.
  intros Hj Hy. apply Nat.ltb_lt in Hj, Hy.
  assert (E : forall t : tensor4,
             convolve_grids t ls_mask j Y 0%nat lat lon =
             Int32.add
               (Int32.add
                  (Int32.add 0 (increment (t Y 11%nat) ls_mask j lat lon))
                  (increment (t Y 0%nat) ls_mask j lat lon))
               (increment (t Y 1%nat) ls_mask j lat lon)).
  { intros t. rewrite convolve_grids_at, Hj, Hy. reflexivity. }
  split; [apply E|].
  intros tin' H. rewrite !E.
  rewrite (increment_ext (tin Y 11%nat) (tin' Y 11%nat)),
          (increment_ext (tin Y 0%nat) (tin' Y 0%nat)),
          (increment_ext (tin Y 1%nat) (tin' Y 1%nat)); [reflexivity| | |];
    intros la lo; apply H; simpl; auto.
Qed.

Lemma djf_from_same_year_index_witness :
  (0 < sh0)%nat /\ (0 < sh1)%nat /\
  convolve_grids one_report land_at_10_20 0%nat 0%nat 0%nat 10 20 =
    Int32.add
      (Int32.add
         (Int32.add 0 (increment (one_report 0%nat 11%nat) land_at_10_20 0%nat 10 20))
         (increment (one_report 0%nat 0%nat) land_at_10_20 0%nat 10 20))
      (increment (one_report 0%nat 1%nat) land_at_10_20 0%nat 10 20).
Proof.
  assert (H0 : (0 < sh0)%nat) by (unfold sh0; lia).
  assert (H1 : (0 < sh1)%nat) by (unfold sh1; lia).
  split; [exact H0|]. split; [exact H1|].
  exact (proj1 (djf_from_same_year_index one_report land_at_10_20 0%nat 0%nat 10 20 H0 H1)).
Defined.

(** *** The polarity of the mask *)

(** Where the mask is [False] the output is zero, in every slice. *)
Lemma zero_where_mask_false tin ls_mask j iyr iseason lat lon :
  ls_mask lat lon = false ->
  convolve_grids tin ls_mask j iyr iseason lat lon = 0.
Proof.
  intros E. rewrite convolve_grids_at, accumulate_mask_false by exact E.
  destruct ((j <? sh0)%nat && (iyr <? sh1)%nat && (iseason <? sh2)%nat); reflexivity.
Qed.

(** Where the mask is [True] the output keeps the window total (for
    non-negative counts, without overflow). *)
Lemma kept_where_mask_true tin ls_mask j iyr iseason lat lon :
  (j < sh0)%nat -> (iyr < sh1)%nat -> (iseason < sh2)%nat ->
  (forall imo la lo, 0 <= tin iyr imo la lo) ->
  window_total tin j iyr iseason lat lon <= Int32.max_signed ->
  ls_mask lat lon = true ->
  convolve_grids tin ls_mask j iyr iseason lat lon =
  window_total tin j iyr iseason lat lon.
Proof.
  intros Hj Hy Hs H0 Hmax E. apply Nat.ltb_lt in Hj, Hy, Hs.
  rewrite convolve_grids_at, accumulate_0, E, Hj, Hy, Hs by assumption. cbn [andb].
  pose proof (window_total_nonneg tin j iyr iseason lat lon H0).
  apply wrap_small. unfold Int32.in_range, Int32.min_signed, Int32.max_signed in *. lia.
Qed.

(** The 1x1 window leaves the grid as it is. *)
Lemma window0_identity (t : grid) (lat lon : Z) :
  0 <= lat < sh3 -> 0 <= lon < sh4 ->
  convolve2d sh3 sh4 t (a 0) lat lon = t lat lon.
Proof.
  intros Hlat Hlon. unfold convolve2d, wrap_index, sh3, sh4 in *.
  change (Z.to_nat (rows (a 0))) with 1%nat. change (Z.to_nat (cols (a 0))) with 1%nat.
  change (Z.shiftr (rows (a 0) - 1) 1) with 0. change (Z.shiftr (cols (a 0) - 1) 1) with 0.
  cbn [sum_upto Z.of_nat]. change (coeff (a 0) 0 0) with 1.
  replace (lat + 0 - 0) with lat by lia. replace (lon + 0 - 0) with lon by lia.
  destruct (Z.ltb_spec lat 0), (Z.leb_spec 180 lat),
           (Z.ltb_spec lon 0), (Z.leb_spec 360 lon); try lia.
Qed.

(** C1 (the code departs from it). With a mask that is [True] on land, as
    the notebook defines it, a land cell is not zeroed: the report of the
    land cell [(10, 20)] is still there in the Annual and DJF slices of
    window 0, and spread over the neighbouring land in window 1, while an
    ocean cell next to it is zeroed. *)
Theorem land_cell_not_zeroed :
  land_at_10_20 10 20 = true /\
  convolve_grids one_report land_at_10_20 0%nat 0%nat 4%nat 10 20 = 1 /\
  convolve_grids one_report land_at_10_20 0%nat 0%nat 0%nat 10 20 = 1 /\
  convolve_grids one_report (fun _ _ => true) 1%nat 0%nat 4%nat 11 21 = 1 /\
  convolve_grids one_report (fun _ _ => false) 1%nat 0%nat 4%nat 11 21 = 0.
Proof. vm_compute. repeat split. Qed.

(** C6 (the code departs from it). In window 0 an ocean cell (mask
    [False]) that holds one report in the seasonal input comes out as 0,
    not as the input, and a land cell (mask [True]) keeps its input count. *)
Theorem window0_ocean_cell_zeroed :
  ocean_at_10_20 10 20 = false /\
  SeasonalAggregator one_report 0%nat 4%nat 10 20 = 1 /\
  convolve_grids one_report ocean_at_10_20 0%nat 0%nat 4%nat 10 20 = 0 /\
  land_at_10_20 10 20 = true /\
  convolve_grids one_report land_at_10_20 0%nat 0%nat 4%nat 10 20 = 1.
Proof. vm_compute. repeat split. Qed.

(** Window 0 in general (for non-negative counts, without overflow): the
    seasonal count where the mask is [True], zero where it is [False]. *)
Lemma window0_output tin ls_mask iyr iseason lat lon :
  (iyr < sh1)%nat -> (iseason < sh2)%nat ->
  0 <= lat < sh3 -> 0 <= lon < sh4 ->
  (forall imo la lo, 0 <= tin iyr imo la lo) ->
  SeasonalAggregator tin iyr iseason lat lon <= Int32.max_signed ->
  convolve_grids tin ls_mask 0%nat iyr iseason lat lon =
  if ls_mask lat lon then SeasonalAggregator tin iyr iseason lat lon else 0.
Proof.
  intros Hy Hs Hlat Hlon H0 Hmax. apply Nat.ltb_lt in Hy, Hs.
  assert (Ewt : window_total tin 0%nat iyr iseason lat lon
                = SeasonalAggregator tin iyr iseason lat lon)
    by (unfold window_total; apply window0_identity; assumption).
  rewrite convolve_grids_at, accumulate_0, Hy, Hs by (assumption || lia).
  cbn [Nat.ltb Nat.leb sh0 andb]. rewrite Ewt.
  destruct (ls_mask lat lon); [|reflexivity].
  pose proof (window_total_nonneg tin 0%nat iyr iseason lat lon H0).
  apply wrap_small. unfold Int32.in_range, Int32.min_signed, Int32.max_signed in *. lia.
Qed.

(* ================================================================== *)
(** ** Monotonicity: precipitating reports against all reports *)
(* ================================================================== *)

(** Without overflow of the larger tensor, the convolved grids keep the
    order of the monthly grids. *)
Lemma convolve_grids_le (n50 nr : tensor4) (ls_mask : Z -> Z -> bool)
    (j iyr iseason : nat) (lat lon : Z) :
  (forall imo la lo, 0 <= n50 iyr imo la lo <= nr iyr imo la lo) ->
  window_total nr j iyr iseason lat lon <= Int32.max_signed ->
  0 <= convolve_grids n50 ls_mask j iyr iseason lat lon
    <= convolve_grids nr ls_mask j iyr iseason lat lon.
Proof.
  intros H Hmax.
  assert (H0 : 0 <= window_total n50 j iyr iseason lat lon).
  { rewrite <- (window_total_zero j iyr iseason lat lon).
    apply window_total_le. intros. apply H. }
  assert (H1 : window_total n50 j iyr iseason lat lon
               <= window_total nr j iyr iseason lat lon).
  { apply window_total_le. intros. apply H. }
  rewrite !convolve_grids_at.
  rewrite (accumulate_0 n50), (accumulate_0 nr);
    [ | intros imo la lo; specialize (H imo la lo); lia | exact Hmax
      | intros; apply H | lia ].
  destruct ((j <? sh0)%nat && (iyr <? sh1)%nat && (iseason <? sh2)%nat); [|lia].
  destruct (ls_mask lat lon); [|lia].
  rewrite !wrap_small; [lia| |];
    unfold Int32.in_range, Int32.min_signed, Int32.max_signed in *; lia.
Qed.

(** Without overflow, the output is the exact window total where the mask
    is [True]. *)
Lemma convolve_grids_exact (tin : tensor4) (ls_mask : Z -> Z -> bool)
    (j iyr iseason : nat) (lat lon : Z) :
  (j < sh0)%nat -> (iyr < sh1)%nat -> (iseason < sh2)%nat ->
  (forall imo la lo, 0 <= tin iyr imo la lo) ->
  window_total tin j iyr iseason lat lon <= Int32.max_signed ->
  convolve_grids tin ls_mask j iyr iseason lat lon =
  window_total tin j iyr iseason lat lon * Z.b2z (ls_mask lat lon).
Proof.
  intros Hj Hy Hs H0 Hmax. apply Nat.ltb_lt in Hj, Hy, Hs.
  rewrite convolve_grids_at, accumulate_0, Hj, Hy, Hs by assumption. cbn [andb].
  destruct (ls_mask lat lon); simpl Z.b2z; [|lia].
  rewrite Z.mul_1_r. apply wrap_small.
  assert (0 <= window_total tin j iyr iseason lat lon).
  { rewrite <- (window_total_zero j iyr iseason lat lon).
    apply window_total_le. intros. apply H0. }
  unfold Int32.in_range, Int32.min_signed, Int32.max_signed in *. lia.
Qed.

(** Without overflow of the Annual slice, the Annual slice is the sum of
    the four seasonal slices with the addition of [Z] as well. *)
Lemma annual_is_exact_sum_of_seasons (tin : tensor4) (ls_mask : Z -> Z -> bool)
    (j iyr : nat) (lat lon : Z) :
  (forall imo la lo, 0 <= tin iyr imo la lo) ->
  window_total tin j iyr 4%nat lat lon <= Int32.max_signed ->
  convolve_grids tin ls_mask j iyr 4%nat lat lon =
  convolve_grids tin ls_mask j iyr 0%nat lat lon
  + convolve_grids tin ls_mask j iyr 1%nat lat lon
  + convolve_grids tin ls_mask j iyr 2%nat lat lon
  + convolve_grids tin ls_mask j iyr 3%nat lat lon.
Proof.
  intros H0 Hmax.
  pose proof (fun imo => convolve2d_nonneg (tin iyr imo) j lat lon (H0 imo)) as Hc.
  pose proof (Hc 0%nat). pose proof (Hc 1%nat). pose proof (Hc 2%nat).
  pose proof (Hc 3%nat). pose proof (Hc 4%nat). pose proof (Hc 5%nat).
  pose proof (Hc 6%nat). pose proof (Hc 7%nat). pose proof (Hc 8%nat).
  pose proof (Hc 9%nat). pose proof (Hc 10%nat). pose proof (Hc 11%nat).
  pose proof (window_total_months tin j iyr 0%nat lat lon) as E0.
  pose proof (window_total_months tin j iyr 1%nat lat lon) as E1.
  pose proof (window_total_months tin j iyr 2%nat lat lon) as E2.
  pose proof (window_total_months tin j iyr 3%nat lat lon) as E3.
  pose proof (window_total_months tin j iyr 4%nat lat lon) as E4.
  cbn [nth months map sumZ fold_right] in E0, E1, E2, E3, E4.
  rewrite !convolve_grids_at.
  rewrite (accumulate_0 tin ls_mask j iyr 0%nat), (accumulate_0 tin ls_mask j iyr 1%nat),
          (accumulate_0 tin ls_mask j iyr 2%nat), (accumulate_0 tin ls_mask j iyr 3%nat),
          (accumulate_0 tin ls_mask j iyr 4%nat) by (assumption || lia).
  destruct ((j <? sh0)%nat && (iyr <? sh1)%nat); cbn [andb]; [|reflexivity].
  change (4 <? sh2)%nat with true. change (0 <? sh2)%nat with true.
  change (1 <? sh2)%nat with true. change (2 <? sh2)%nat with true.
  change (3 <? sh2)%nat with true. cbv iota.
  destruct (ls_mask lat lon); [|reflexivity].
  rewrite !wrap_small;
    unfold Int32.in_range, Int32.min_signed, Int32.max_signed in *; lia.
Qed.

(* ================================================================== *)
(** ** Properties of the binning *)
(* ================================================================== *)

Lemma filter_length_le {A : Type} (p : A -> bool) (l : list A) :
  (length (filter p l) <= length l)%nat.
Proof. induction l as [|x l IH]; simpl; [lia|]. destruct (p x); simpl; lia. Qed.

Lemma filter_filter_length_le {A : Type} (p q : A -> bool) (l : list A) :
  (length (filter p (filter q l)) <= length (filter p l))%nat.
Proof.
  induction l as [|x l IH]; simpl; [lia|].
  destruct (q x), (p x) eqn:E; simpl; rewrite ?E; simpl; lia.
Qed.

(** Cell by cell, the monthly count of precipitating reports is at most
    the monthly count of reports, and neither is negative. *)
Lemma monthly_precip_le_reports (df : list T.report) (iyr imo : nat) (ilat ilon : Z) :
  0 <= T.nprecip df iyr imo ilat ilon <= T.nreports df iyr imo ilat ilon.
Proof.
  unfold T.nprecip, T.nreports, T.values.
  destruct (nth_error (T.years df) iyr), (nth_error T.months imo),
           (T.at_index T.lats ilat), (T.at_index T.lons ilon); try lia.
  unfold T.df_precip, T.df_reports, T.groupby_size.
  pose proof (filter_filter_length_le (T.in_group z z0 q q0) T.at_least_drizzle df).
  lia.
Qed.

(** C10, as stated, fails: with [2^30] reports in a cell in December,
    January and February, of which one each month is precipitating, the
    DJF total of reports wraps around to a negative [int32] and falls below the
    count of precipitating reports. *)
Lemma precip_exceeds_reports_on_overflow :
  (forall iyr imo lat lon,
      0 <= n50_overflow iyr imo lat lon <= nr_overflow iyr imo lat lon) /\
  Convolve.nreports nr_overflow (fun _ _ => true) 0%nat 0%nat 0%nat 0 0 = - 2 ^ 30 /\
  Convolve.nprecip n50_overflow (fun _ _ => true) 0%nat 0%nat 0%nat 0 0 = 3 /\
  ~ (Convolve.nprecip n50_overflow (fun _ _ => true) 0%nat 0%nat 0%nat 0 0
     <= Convolve.nreports nr_overflow (fun _ _ => true) 0%nat 0%nat 0%nat 0 0).
Proof.
  split.
  - intros iyr imo lat lon. unfold n50_overflow, nr_overflow.
    destruct ((iyr =? 0)%nat && (lat =? 0) && (lon =? 0)); lia.
  - assert (E1 : Convolve.nreports nr_overflow (fun _ _ => true) 0%nat 0%nat 0%nat 0 0
                 = - 2 ^ 30) by (vm_compute; reflexivity).
    assert (E2 : Convolve.nprecip n50_overflow (fun _ _ => true) 0%nat 0%nat 0%nat 0 0
                 = 3) by (vm_compute; reflexivity).
    rewrite E1, E2. repeat split. lia.
Qed.

(** C10 (amended). In every cell of the monthly grids the count of
    precipitating reports is at most the count of reports; and in a cell
    of the convolved tensors whose exact window total of reports fits the
    signed 32-bit range, [nprecip] is at most [nreports]. *)
Theorem precip_le_reports (df : list T.report) (ls_mask : Z -> Z -> bool)
    (j iyr iseason : nat) (lat lon : Z) :
  window_total (T.nreports df) j iyr iseason lat lon <= Int32.max_signed ->
  (forall iyr' imo ilat ilon,
      T.nprecip df iyr' imo ilat ilon <= T.nreports df iyr' imo ilat ilon) /\
  Convolve.nprecip (T.nprecip df) ls_mask j iyr iseason lat lon
  <= Convolve.nreports (T.nreports df) ls_mask j iyr iseason lat lon.
Proof.
  intros Hmax. split.
  - intros. apply monthly_precip_le_reports.
  - unfold Convolve.nprecip, Convolve.nreports.
    apply convolve_grids_le; [|exact Hmax].
    intros. apply monthly_precip_le_reports.
Qed.

Lemma precip_le_reports_witness :
  window_total (T.nreports two_reports) 1%nat 0%nat 4%nat 135 0 <= Int32.max_signed /\
  T.nreports two_reports 0%nat 0%nat 135 0 = 2 /\
  T.nprecip two_reports 0%nat 0%nat 135 0 = 1 /\
  Convolve.nprecip (T.nprecip two_reports) (fun _ _ => true) 1%nat 0%nat 4%nat 135 0
  <= Convolve.nreports (T.nreports two_reports) (fun _ _ => true) 1%nat 0%nat 4%nat 135 0.
Proof.
  assert (H : window_total (T.nreports two_reports) 1%nat 0%nat 4%nat 135 0
              <= Int32.max_signed) by (vm_compute; discriminate).
  split; [exact H|]. split; [vm_compute; reflexivity|]. split; [vm_compute; reflexivity|].
  exact (proj2 (precip_le_reports two_reports (fun _ _ => true) 1%nat 0%nat 4%nat 135 0 H)).
Defined.

(** *** The label of a coordinate *)

Lemma digitize_le_length (x : Q) (bins : list Q) :
  (T.digitize x bins <= length bins)%nat.
Proof.
  induction bins as [|b bs IH]; simpl; [lia|].
  destruct (Qle_bool b x); lia.
Qed.

Lemma getitem_nat {A : Type} (l : list A) (i : nat) :
  (i < length l)%nat -> T.getitem l (Z.of_nat i) = nth_error l i.
Proof.
  intros H. unfold T.getitem.
  destruct (Z.leb_spec 0 (Z.of_nat i)); [|lia].
  destruct (Z.ltb_spec (Z.of_nat i) (Z.of_nat (length l))); [|lia].
  cbn [andb]. rewrite Nat2Z.id. reflexivity.
Qed.

Lemma nth_error_last {A : Type} (l : list A) (x d : A) :
  nth_error (x :: l) (length l) = Some (last (x :: l) d).
Proof.
  revert x. induction l as [|y l IH]; intros x; [reflexivity|].
  change (nth_error (y :: l) (length l) = Some (last (y :: l) d)). apply IH.
Qed.

Lemma getitem_minus_1 {A : Type} (l : list A) (x d : A) :
  T.getitem (x :: l) (-1) = Some (last (x :: l) d).
Proof.
  unfold T.getitem. cbn [andb Z.leb Z.compare].
  destruct (Z.leb_spec (- Z.of_nat (length (x :: l))) (-1)) as [_|H];
    [|cbn [length] in H; lia].
  cbn [Z.ltb Z.compare andb].
  replace (Z.to_nat (Z.of_nat (length (x :: l)) + -1)) with (length l)
    by (cbn [length]; lia).
  apply nth_error_last.
Qed.

Lemma digitize_floor (x : Q) (rest : list Q) :
  forall b0, StronglySorted Qlt (b0 :: rest) -> (b0 <= x)%Q ->
  exists e, nth_error (b0 :: rest) (T.digitize x rest) = Some e
            /\ greatest_edge_below x (b0 :: rest) e.
Proof.
  induction rest as [|b1 rest IH]; intros b0 Hs Hb0.
  - exists b0. split; [reflexivity|]. repeat split; [left; reflexivity | exact Hb0 |].
    intros e' [<-|[]] _. apply Qle_refl.
  - inversion Hs as [|? ? Hs' Hall]; subst.
    cbn [T.digitize]. destruct (Qle_bool b1 x) eqn:E.
    + apply Qle_bool_iff in E.
      destruct (IH b1 Hs' E) as [e [He [Hin [Hle Hmax]]]].
      exists e. split; [exact He|]. repeat split; [right; exact Hin | exact Hle |].
      intros e' [<-|Hin'] Hle'; [|apply Hmax; assumption].
      apply Qle_trans with b1.
      * apply Qlt_le_weak. inversion Hall; assumption.
      * apply Hmax; [left; reflexivity | exact E].
    + exists b0. split; [reflexivity|]. repeat split; [left; reflexivity | exact Hb0 |].
      intros e' [<-|Hin'] Hle'; [apply Qle_refl|].
      exfalso.
      assert (Hb1 : (b1 <= e')%Q).
      { destruct Hin' as [<-|Hin']; [apply Qle_refl|].
        inversion Hs' as [|? ? _ Hall1]; subst.
        apply Qlt_le_weak. rewrite Forall_forall in Hall1. apply Hall1, Hin'. }
      assert (Hx : (b1 <= x)%Q) by (apply Qle_trans with e'; assumption).
      apply Qle_bool_iff in Hx. congruence.
Qed.

(** Below the first edge the index is [-1]: the label is the last edge. *)
Lemma bin_label_below_first (x b0 : Q) (rest : list Q) :
  (x < b0)%Q -> T.bin_label x (b0 :: rest) = Some (last (b0 :: rest) b0).
Proof.
  intros H. unfold T.bin_label. cbn [T.digitize].
  destruct (Qle_bool b0 x) eqn:E.
  - apply Qle_bool_iff in E. exfalso. apply (Qlt_not_le _ _ H E).
  - apply getitem_minus_1.
Qed.

(** The edges of the notebook are strictly increasing. *)
Lemma np_arange_sorted (start stop : Z) :
  StronglySorted Qlt (map inject_Z (T.np_arange start stop 1)).
Proof.
  apply Sorted_StronglySorted; [intros p q r; apply Qlt_trans|].
  unfold T.np_arange. generalize (Z.to_nat ((stop - start + 1 - 1) / 1)) as n.
  intros n. generalize 0%nat as k. induction n as [|n IH]; intros k; simpl.
  - constructor.
  - constructor; [apply IH|].
    destruct n; simpl; constructor.
    rewrite <- Zlt_Qlt. lia.
Qed.

Lemma lats_sorted : StronglySorted Qlt T.lats.
Proof. apply np_arange_sorted. Qed.

Lemma lons_sorted : StronglySorted Qlt T.lons.
Proof. apply np_arange_sorted. Qed.

(** C8, as stated, fails: a latitude of -91, below the first edge -90, and
    a longitude of 400, above the last cell, raise no error; both are
    labelled with the last edge. *)
Lemma out_of_range_coordinate_is_binned :
  hd_error T.lats = Some (-90)%Q /\ (-91 < -90)%Q /\
  T.LAT_BIN (T.mk_report 1950 1 (-91) 10 None) = Some 89%Q /\
  T.LAT_BIN (T.mk_report 1950 1 (-91) 10 None) <> None /\
  T.LON_BIN (T.mk_report 1950 1 0 400 None) = Some 359%Q.
Proof.
  split; [reflexivity|]. split; [reflexivity|].
  split; [vm_compute; reflexivity|]. split; [vm_compute; discriminate|].
  vm_compute; reflexivity.
Qed.

(** C8 (amended). For strictly increasing edges, every coordinate gets the
    label of some edge: binning has no failure. When the coordinate is
    at or above the first edge, the label is the greatest edge at or below
    the coordinate. *)
Theorem bin_label_floor (x b0 : Q) (rest : list Q) :
  StronglySorted Qlt (b0 :: rest) ->
  exists e, T.bin_label x (b0 :: rest) = Some e /\ In e (b0 :: rest) /\
            ((b0 <= x)%Q -> greatest_edge_below x (b0 :: rest) e).
Proof.
  intros Hs. destruct (Qlt_le_dec x b0) as [Hlt|Hle].
  - exists (last (b0 :: rest) b0). split; [apply bin_label_below_first, Hlt|].
    split.
    + destruct (@exists_last _ (b0 :: rest) ltac:(discriminate)) as [l' [z Hz]].
      rewrite Hz, last_last. apply in_or_app. right. left. reflexivity.
    + intros Hle. exfalso. apply (Qlt_not_le _ _ Hlt Hle).
  - destruct (digitize_floor x rest b0 Hs Hle) as [e [He Hspec]].
    exists e. split; [|split; [apply Hspec | intros _; exact Hspec]].
    unfold T.bin_label. cbn [T.digitize].
    apply Qle_bool_iff in Hle. rewrite Hle.
    replace (Z.of_nat (S (T.digitize x rest)) - 1) with (Z.of_nat (T.digitize x rest)) by lia.
    rewrite getitem_nat; [exact He|].
    pose proof (digitize_le_length x rest). cbn [length]. lia.
Qed.

Lemma bin_label_floor_witness :
  StronglySorted Qlt T.lats /\
  exists e, T.bin_label (453 # 10) T.lats = Some e /\ In e T.lats /\
            ((-90 <= 453 # 10)%Q -> greatest_edge_below (453 # 10) T.lats e).
Proof.
  split; [exact lats_sorted|].
  exact (bin_label_floor (453 # 10) (-90)%Q (tl T.lats) lats_sorted).
Defined.

(* ================================================================== *)
(** ** Properties of the composite *)
(* ================================================================== *)

(** The order of the passes: 12 thresholds times 7 windows, each
    threshold with the windows 6 down to 0, from 0.4 to 0.001. *)
Lemma passes_order :
  length passes = 84%nat /\
  map snd (firstn 7 passes) = [6; 5; 4; 3; 2; 1; 0]%nat /\
  map fst (firstn 7 passes) = repeat (C.to_float32 (C.py_float 4 10)) 7 /\
  map fst (skipn 77 passes) = repeat (C.to_float32 (C.py_float 1 1000)) 7 /\
  map snd (skipn 77 passes) = [6; 5; 4; 3; 2; 1; 0]%nat.
Proof. vm_compute. repeat split. Qed.

(** The values of the thresholds in [float32]: mantissa and exponent. *)
Lemma thresholds_values :
  thresholds =
  [ S754_finite false 13421773 (-25); S754_finite false 10066330 (-25);
    S754_finite false 13421773 (-26); S754_finite false 13421773 (-27);
    S754_finite false 13421773 (-28); S754_finite false 16106127 (-29);
    S754_finite false 10737418 (-29); S754_finite false 10737418 (-30);
    S754_finite false 10737418 (-31); S754_finite false 12884902 (-32);
    S754_finite false 8589935 (-32); S754_finite false 8589935 (-33) ].
Proof. vm_compute. reflexivity. Qed.

(** The two loops of the notebook run through the passes in that order. *)
Lemma passes_of_loops :
  flat_map (fun sthresh => map (pair sthresh) C.windows) C.sthresh_list = passes.
Proof. vm_compute. reflexivity. Qed.

Section Overwrite.

Variable cell : Type.
Variables f s : nat -> cell -> C.float32.

Lemma fold_left_flat_map {A B S : Type} (step : S -> B -> S) (g : A -> list B) (l : list A) :
  forall st, fold_left step (flat_map g l) st =
             fold_left (fun st x => fold_left step (g x) st) l st.
Proof.
  induction l as [|x l IH]; intros st; simpl; [reflexivity|].
  rewrite fold_left_app. apply IH.
Qed.

Lemma fold_left_map_pair {A B S : Type} (step : S -> A -> B -> S) (x : A) (l : list B) :
  forall st, fold_left (fun st p => step st (fst p) (snd p)) (map (pair x) l) st =
             fold_left (fun st i => step st x i) l st.
Proof. induction l as [|i l IH]; intros st; simpl; [reflexivity|]. apply IH. Qed.

(** The two loops are one loop over the passes. *)
Lemma loop_thresholds_passes (st : C.state cell) :
  C.loop_thresholds cell f s st =
  fold_left (fun st p => C.assign cell f s st (fst p) (snd p)) passes st.
Proof.
  rewrite <- passes_of_loops. unfold C.loop_thresholds. rewrite fold_left_flat_map.
  generalize C.sthresh_list as l. intros l. revert st.
  induction l as [|x l IH]; intros st; cbn [fold_left]; [reflexivity|].
  rewrite IH. apply (f_equal (fold_left _ _)). unfold C.loop_windows.
  symmetry. exact (fold_left_map_pair (C.assign cell f s) x C.windows st).
Qed.

(** A run of overwriting passes leaves in a cell what its last eligible
    pass assigned, or what was there before when none is eligible. *)
Lemma overwrite_last (c : cell) (l : list (C.float32 * nat)) :
  forall st,
    at_cell (fold_left (fun st p => C.assign cell f s st (fst p) (snd p)) l st) c =
    match find (eligible f s c) (rev l) with
    | Some (_, i) => (f i c, s i c, Z.of_nat i)
    | None => at_cell st c
    end.
Proof.
  induction l as [|p l IH] using rev_ind; intros st; [reflexivity|].
  rewrite fold_left_app, rev_app_distr. cbn [fold_left rev app find].
  destruct p as [sthresh i]. cbn [fst snd].
  unfold at_cell at 1. cbn [C.assign C.fcomp C.scomp C.rcomp].
  change (eligible f s c (sthresh, i)) with (C.m cell f s sthresh i c).
  destruct (C.m cell f s sthresh i c); [reflexivity|].
  apply IH.
Qed.

Lemma composites_last (c : cell) :
  at_cell (C.composites cell f s) c =
  match last_eligible f s c with
  | Some (_, i) => (f i c, s i c, Z.of_nat i)
  | None => (S754_nan, S754_nan, -1)
  end.
Proof.
  unfold C.composites. rewrite loop_thresholds_passes, overwrite_last. reflexivity.
Qed.

End Overwrite.

(** C2. In every cell the composite [(f_composite, s_composite,
    r_composite)] is what the last eligible (threshold, window) pass of the
    fixed iteration order assigned (the 84 passes of [passes]: thresholds
    0.4, 0.3, 0.2, 0.1, 0.05, 0.03, 0.02, 0.01, 0.005, 0.003, 0.002, 0.001
    outer, windows 6, 5, 4, 3, 2, 1, 0 inner), and a cell without eligible
    pass keeps [(NaN, NaN, -1)]. *)
Theorem composite_is_last_eligible (cell : Type) (f s : nat -> cell -> C.float32) (c : cell) :
  (C.fcomp cell (C.composites cell f s) c,
   C.scomp cell (C.composites cell f s) c,
   C.rcomp cell (C.composites cell f s) c) =
  match last_eligible f s c with
  | Some (_, window) => (f window c, s window c, Z.of_nat window)
  | None => (S754_nan, S754_nan, -1)
  end.
Proof. apply (composites_last cell f s c). Qed.

(** C4, as stated, fails: a fraction that is the negative zero equals 0,
    and with a standard error of 0.5 the ratio [s/f] is [-inf], which is
    below every threshold: the cell is selected by the relative-error test
    although the low-signal test fails, and ends at window 0. *)
Lemma negative_zero_fraction_is_selected :
  SFeqb (f_negative_zero 6%nat tt) (S754_zero false) = true /\
  C.sratio unit f_negative_zero s_half 6%nat tt = S754_infinity true /\
  C.m1 unit f_negative_zero s_half (C.to_float32 (C.py_float 4 10)) 6%nat tt = true /\
  C.m2 unit f_negative_zero s_half 6%nat tt = false /\
  C.rcomp unit (C.composites unit f_negative_zero s_half) tt = 0.
Proof. vm_compute. repeat split. Qed.

(** C4 (amended). Where the fraction is the positive zero and the standard
    error is not negative, the ratio [s/f] is computed (as [NaN] or
    [+inf]), the test [s/f < threshold] is false for every threshold, and
    the cell is selected by a pass exactly when the low-signal test
    [f + s < 0.01] holds. *)
Theorem zero_fraction_only_low_signal (cell : Type) (f s : nat -> cell -> C.float32)
    (i : nat) (c : cell) (sthresh : C.float32) :
  f i c = S754_zero false -> not_negative (s i c) ->
  (C.sratio cell f s i c = S754_nan \/ C.sratio cell f s i c = S754_infinity false) /\
  C.m1 cell f s sthresh i c = false /\
  C.m cell f s sthresh i c = C.m2 cell f s i c.
Proof.
  unfold not_negative, C.m, C.m1, C.sratio, C.f32_div, C.f32_lt.
  intros Hf Hs. rewrite Hf.
  assert (E : SFdiv C.prec C.emax (s i c) (S754_zero false) = S754_nan
              \/ SFdiv C.prec C.emax (s i c) (S754_zero false) = S754_infinity false).
  { destruct (s i c) as [b|b| |b mm e]; try destruct b; try discriminate Hs;
      cbn [SFdiv xorb]; auto. }
  assert (L : SFltb (SFdiv C.prec C.emax (s i c) (S754_zero false)) sthresh = false).
  { destruct E as [-> | ->]; destruct sthresh as [b'|b'| |b' m' e'];
      try destruct b'; reflexivity. }
  rewrite L. split; [exact E|]. split; reflexivity.
Qed.

Lemma zero_fraction_only_low_signal_witness :
  C.m1 unit (fun _ _ => S754_zero false) (fun _ _ => S754_zero false)
       (C.to_float32 (C.py_float 4 10)) 6%nat tt = false /\
  C.m unit (fun _ _ => S754_zero false) (fun _ _ => S754_zero false)
      (C.to_float32 (C.py_float 4 10)) 6%nat tt = true.
Proof.
  pose proof (zero_fraction_only_low_signal unit
                (fun _ _ => S754_zero false) (fun _ _ => S754_zero false)
                6%nat tt (C.to_float32 (C.py_float 4 10)) eq_refl eq_refl) as [_ [H1 H2]].
  split; [exact H1|]. rewrite H2. vm_compute. reflexivity.
Defined.

(** C7. A cell whose fraction and standard error are zero in every window
    meets the low-signal test, and with it the first pass (threshold 0.4,
    window 6); after all the passes its window index is 0, not -1, and its
    composite fraction and standard error are those of window 0. *)
Theorem all_zero_cell_ends_at_window_0 (cell : Type) (f s : nat -> cell -> C.float32)
    (c : cell) :
  (forall i, (i < Convolve.sh0)%nat -> is_zero (f i c) = true /\ is_zero (s i c) = true) ->
  C.m2 cell f s 6%nat c = true /\
  hd_error passes = Some (C.to_float32 (C.py_float 4 10), 6%nat) /\
  eligible f s c (C.to_float32 (C.py_float 4 10), 6%nat) = true /\
  C.rcomp cell (C.composites cell f s) c = 0 /\
  C.rcomp cell (C.composites cell f s) c <> -1 /\
  C.fcomp cell (C.composites cell f s) c = f 0%nat c /\
  C.scomp cell (C.composites cell f s) c = s 0%nat c.
Proof.
  intros H.
  assert (Hm2 : forall i, (i < Convolve.sh0)%nat -> C.m2 cell f s i c = true).
  { intros i Hi. destruct (H i Hi) as [Hf Hs]. unfold C.m2, C.f32_add, C.f32_lt.
    destruct (f i c) as [b1| | |]; try discriminate Hf.
    destruct (s i c) as [b2| | |]; try discriminate Hs.
    destruct b1, b2; vm_compute; reflexivity. }
  assert (Hel : forall sthresh i, (i < Convolve.sh0)%nat -> eligible f s c (sthresh, i) = true).
  { intros sthresh i Hi.
    change (eligible f s c (sthresh, i)) with (C.m cell f s sthresh i c).
    unfold C.m. rewrite (Hm2 i Hi). apply orb_true_r. }
  assert (Hlast : exists sthresh l, rev passes = (sthresh, 0%nat) :: l).
  { eexists. eexists. vm_compute. reflexivity. }
  destruct Hlast as [sthresh [l Hl]].
  pose proof (composites_last cell f s c) as E.
  unfold last_eligible in E. rewrite Hl in E. cbn [find] in E.
  rewrite Hel in E by (unfold Convolve.sh0; lia).
  unfold at_cell in E.
  pose proof (f_equal (fun t => fst (fst t)) E) as Ef.
  pose proof (f_equal (fun t => snd (fst t)) E) as Es.
  pose proof (f_equal snd E) as Er.
  cbn beta iota delta [fst snd] in Ef, Es, Er.
  split; [apply Hm2; unfold Convolve.sh0; lia|].
  split; [vm_compute; reflexivity|].
  split; [apply Hel; unfold Convolve.sh0; lia|].
  rewrite Er, Ef, Es. repeat split. discriminate.
Qed.

Lemma all_zero_cell_ends_at_window_0_witness :
  C.rcomp unit (C.composites unit (fun _ _ => S754_zero false) (fun _ _ => S754_zero false)) tt
  = 0.
Proof.
  apply (all_zero_cell_ends_at_window_0 unit
           (fun _ _ => S754_zero false) (fun _ _ => S754_zero false) tt).
  intros i _. split; reflexivity.
Defined.

(* ================================================================== *)
(** ** The windows of the convolution *)
(* ================================================================== *)

Lemma sum_upto_ext_in (n : nat) (f g : Z -> Z) :
  (forall i, 0 <= i < Z.of_nat n -> f i = g i) -> sum_upto n f = sum_upto n g.
Proof.
  induction n as [|n IH]; intros H; simpl; [reflexivity|].
  rewrite IH, H; [reflexivity|lia|]. intros i Hi. apply H. lia.
Qed.

Lemma sum_upto_app (n k : nat) (f : Z -> Z) :
  sum_upto (n + k) f = sum_upto n f + sum_upto k (fun i => f (i + Z.of_nat n)).
Proof.
  induction k as [|k IH].
  - rewrite Nat.add_0_r. simpl. lia.
  - rewrite Nat.add_succ_r. simpl. rewrite IH.
    replace (Z.of_nat (n + k)) with (Z.of_nat k + Z.of_nat n) by lia. lia.
Qed.

Lemma sum_upto_rev (n : nat) (f : Z -> Z) :
  sum_upto n f = sum_upto n (fun i => f (Z.of_nat n - 1 - i)).
Proof.
  induction n as [|n IH]; [reflexivity|].
  set (g := fun i => f (Z.of_nat (S n) - 1 - i)).
  change (sum_upto n f + f (Z.of_nat n) = sum_upto (1 + n) g).
  rewrite sum_upto_app, IH. cbn [sum_upto]. unfold g.
  replace (Z.of_nat (S n) - 1 - Z.of_nat 0) with (Z.of_nat n) by lia.
  rewrite (sum_upto_ext_in n (fun i => f (Z.of_nat (S n) - 1 - (i + Z.of_nat 1)))
             (fun i => f (Z.of_nat n - 1 - i))).
  - lia.
  - intros i Hi. f_equal. lia.
Qed.

Lemma sum_upto_swap (n k : nat) (f : Z -> Z -> Z) :
  sum_upto n (fun i => sum_upto k (fun j => f i j)) =
  sum_upto k (fun j => sum_upto n (fun i => f i j)).
Proof.
  induction n as [|n IH]; simpl.
  - symmetry. apply sum_upto_zero.
  - rewrite IH, <- sum_upto_add. reflexivity.
Qed.

Lemma sum_upto_const (n : nat) (c : Z) : sum_upto n (fun _ => c) = Z.of_nat n * c.
Proof. induction n as [|n IH]; simpl sum_upto; [lia|]. rewrite IH. lia. Qed.

(** Part of a sum of non-negative terms is at most the sum. *)
Lemma sum_upto_sub_le (n k d : nat) (f : Z -> Z) :
  (forall i, 0 <= f i) -> (d + k <= n)%nat ->
  sum_upto k (fun i => f (i + Z.of_nat d)) <= sum_upto n f.
Proof.
  intros Hf H. replace n with (d + k + (n - (d + k)))%nat by lia.
  rewrite !sum_upto_app.
  pose proof (sum_upto_nonneg d f Hf).
  pose proof (sum_upto_nonneg (n - (d + k)) (fun i => f (i + Z.of_nat (d + k)))
                (fun i => Hf _)).
  lia.
Qed.

(** A sum over a full period does not see a cyclic shift. *)
Lemma sum_upto_shift_mod (N c : Z) (g : Z -> Z) :
  0 < N ->
  sum_upto (Z.to_nat N) (fun i => g ((i + c) mod N)) = sum_upto (Z.to_nat N) g.
Proof.
  intros HN.
  pose proof (Z.mod_pos_bound c N HN) as Hc.
  set (k := Z.to_nat (c mod N)).
  assert (Hk : Z.of_nat k = c mod N) by (unfold k; lia).
  replace (Z.to_nat N) with ((Z.to_nat N - k) + k)%nat by lia.
  rewrite sum_upto_app.
  rewrite (Nat.add_comm (Z.to_nat N - k) k), (sum_upto_app k (Z.to_nat N - k) g).
  rewrite (sum_upto_ext_in (Z.to_nat N - k) _ (fun i => g (i + Z.of_nat k))).
  - rewrite (sum_upto_ext_in k _ g); [lia|].
    intros i Hi. f_equal.
    rewrite <- Zplus_mod_idemp_r, <- Hk.
    replace (i + Z.of_nat (Z.to_nat N - k) + Z.of_nat k) with (i + 1 * N) by lia.
    rewrite Z_mod_plus_full. apply Z.mod_small. lia.
  - intros i Hi. f_equal.
    rewrite <- Zplus_mod_idemp_r, <- Hk. apply Z.mod_small. lia.
Qed.

Lemma wrap_index_mod (N x : Z) :
  0 < N -> - N <= x < 2 * N -> wrap_index N x = x mod N.
Proof.
  intros HN Hx. unfold wrap_index.
  destruct (Z.ltb_spec x 0).
  - replace x with (N + x + (-1) * N) at 2 by lia.
    rewrite Z_mod_plus_full. symmetry. apply Z.mod_small. lia.
  - destruct (Z.leb_spec N x).
    + replace x with (x - N + 1 * N) at 2 by lia.
      rewrite Z_mod_plus_full. symmetry. apply Z.mod_small. lia.
    + symmetry. apply Z.mod_small. lia.
Qed.

Lemma a_half_window (j : nat) :
  rows (a j) = 2 * fst (half_window j) + 1 /\
  cols (a j) = 2 * snd (half_window j) + 1.
Proof.
  unfold a, half_window. destruct (j <? sh0 - 1)%nat; cbn [rows cols np_ones fst snd]; lia.
Qed.

Lemma half_window_bounds (j : nat) :
  (j < sh0)%nat ->
  0 <= fst (half_window j) <= 6 /\ 0 <= snd (half_window j) <= 13.
Proof.
  intros H. unfold sh0 in H. unfold half_window.
  do 7 (destruct j as [|j]; [cbn; lia|]). lia.
Qed.

Lemma half_window_le (j j' : nat) :
  (j <= j')%nat -> (j' < sh0)%nat ->
  fst (half_window j) <= fst (half_window j') /\
  snd (half_window j) <= snd (half_window j').
Proof.
  intros H H'. unfold sh0 in H'. unfold half_window, sh0.
  destruct (Nat.ltb_spec j (7 - 1)), (Nat.ltb_spec j' (7 - 1)); cbn [fst snd]; lia.
Qed.

(** The convolution with a window, at a cell of the grid, is the sum over
    the box centred on the cell. *)
Lemma convolve2d_box (t : grid) (j : nat) (lat lon : Z) :
  (j < sh0)%nat -> 0 <= lat < sh3 -> 0 <= lon < sh4 ->
  convolve2d sh3 sh4 t (a j) lat lon =
  box_sum t (fst (half_window j)) (snd (half_window j)) lat lon.
Proof.
  intros Hj Hlat Hlon.
  destruct (a_half_window j) as [Hr Hc].
  destruct (half_window_bounds j Hj) as [Hp Hq].
  set (p := fst (half_window j)) in *. set (q := snd (half_window j)) in *.
  unfold convolve2d, box_sum. cbv zeta. rewrite Hr, Hc.
  replace (Z.shiftr (2 * p + 1 - 1) 1) with p
    by (rewrite Z.shiftr_div_pow2 by lia; change (2 ^ 1) with 2;
        replace (2 * p + 1 - 1) with (p * 2) by lia; rewrite Z.div_mul; lia).
  replace (Z.shiftr (2 * q + 1 - 1) 1) with q
    by (rewrite Z.shiftr_div_pow2 by lia; change (2 ^ 1) with 2;
        replace (2 * q + 1 - 1) with (q * 2) by lia; rewrite Z.div_mul; lia).
  rewrite sum_upto_rev. apply sum_upto_ext_in; intros d Hd.
  rewrite sum_upto_rev. apply sum_upto_ext_in; intros e He.
  rewrite coeff_a, Z.mul_1_r.
  unfold sh3, sh4 in *.
  rewrite !wrap_index_mod by lia.
  f_equal; f_equal; lia.
Qed.

Lemma box_sum_le (t : grid) (p q p' q' lat lon : Z) :
  (forall la lo, 0 <= t la lo) ->
  0 <= p <= p' -> 0 <= q <= q' ->
  box_sum t p q lat lon <= box_sum t p' q' lat lon.
Proof.
  intros Ht Hp Hq. unfold box_sum.
  set (G := fun d => sum_upto (Z.to_nat (2 * q' + 1))
                       (fun e => t ((lat - p' + d) mod sh3) ((lon - q' + e) mod sh4))).
  apply Z.le_trans with
    (sum_upto (Z.to_nat (2 * p + 1)) (fun d => G (d + Z.of_nat (Z.to_nat (p' - p))))).
  - apply sum_upto_le; intros d. unfold G.
    replace (lat - p' + (d + Z.of_nat (Z.to_nat (p' - p)))) with (lat - p + d) by lia.
    set (F := fun e => t ((lat - p + d) mod sh3) ((lon - q' + e) mod sh4)).
    apply Z.le_trans with
      (sum_upto (Z.to_nat (2 * q + 1)) (fun e => F (e + Z.of_nat (Z.to_nat (q' - q))))).
    + apply sum_upto_le; intros e. unfold F.
      replace (lon - q' + (e + Z.of_nat (Z.to_nat (q' - q)))) with (lon - q + e) by lia.
      lia.
    + apply (sum_upto_sub_le _ _ _ F); [intros; apply Ht | lia].
  - apply (sum_upto_sub_le _ _ _ G); [|lia].
    intros d. unfold G. apply sum_upto_nonneg. intros e. apply Ht.
Qed.

Lemma SeasonalAggregator_nonneg (tin : tensor4) (iyr iseason : nat) (lat lon : Z) :
  (forall imo la lo, 0 <= tin iyr imo la lo) ->
  0 <= SeasonalAggregator tin iyr iseason lat lon.
Proof.
  intros H. unfold SeasonalAggregator.
  induction (nth iseason months []) as [|imo l IH]; simpl; [lia|].
  specialize (H imo lat lon). lia.
Qed.

(** X1. For non-negative counts, in every slice of the output and every
    cell of the grid where the count over the box fits the signed 32-bit
    range, the convolved value is the number of reports of the season in
    the box of the window centred on the cell, rows and columns wrapping
    around the grid (latitude included), where the mask is [True]; it is 0
    where the mask is [False]. *)
Theorem output_is_centred_box (tin : tensor4) (ls_mask : Z -> Z -> bool)
    (j iyr iseason : nat) (lat lon : Z) :
  (j < sh0)%nat -> (iyr < sh1)%nat -> (iseason < sh2)%nat ->
  0 <= lat < sh3 -> 0 <= lon < sh4 ->
  (forall imo la lo, 0 <= tin iyr imo la lo) ->
  box_sum (SeasonalAggregator tin iyr iseason)
          (fst (half_window j)) (snd (half_window j)) lat lon <= Int32.max_signed ->
  convolve_grids tin ls_mask j iyr iseason lat lon =
  if ls_mask lat lon
  then box_sum (SeasonalAggregator tin iyr iseason)
               (fst (half_window j)) (snd (half_window j)) lat lon
  else 0.
Proof.
  intros Hj Hy Hs Hlat Hlon H0 Hmax.
  assert (E : window_total tin j iyr iseason lat lon =
              box_sum (SeasonalAggregator tin iyr iseason)
                      (fst (half_window j)) (snd (half_window j)) lat lon)
    by (unfold window_total; apply convolve2d_box; assumption).
  rewrite <- E in *.
  rewrite convolve_grids_at, accumulate_0 by assumption.
  pose proof Hj as Hj'. apply Nat.ltb_lt in Hj', Hy, Hs. rewrite Hj', Hy, Hs. cbn [andb].
  destruct (ls_mask lat lon); [|reflexivity].
  pose proof (window_total_nonneg tin j iyr iseason lat lon H0).
  apply wrap_small. unfold Int32.in_range, Int32.min_signed, Int32.max_signed in *. lia.
Qed.

Lemma output_is_centred_box_witness :
  (1 < sh0)%nat /\ (0 < sh1)%nat /\ (4 < sh2)%nat /\ 0 <= 9 < sh3 /\ 0 <= 19 < sh4 /\
  box_sum (SeasonalAggregator one_report 0%nat 4%nat) 1 1 9 19 = 1 /\
  convolve_grids one_report (fun _ _ => true) 1%nat 0%nat 4%nat 9 19 = 1.
Proof.
  assert (H0 : (1 < sh0)%nat) by (unfold sh0; lia).
  assert (H1 : (0 < sh1)%nat) by (unfold sh1; lia).
  assert (H2 : (4 < sh2)%nat) by (unfold sh2; lia).
  assert (H3 : 0 <= 9 < sh3) by (unfold sh3; lia).
  assert (H4 : 0 <= 19 < sh4) by (unfold sh4; lia).
  assert (H5 : forall imo la lo, 0 <= one_report 0%nat imo la lo).
  { intros imo la lo. unfold one_report.
    destruct ((0 =? 0)%nat && (imo =? 0)%nat && (la =? 10) && (lo =? 20)); lia. }
  assert (E : box_sum (SeasonalAggregator one_report 0%nat 4%nat) 1 1 9 19 = 1)
    by (vm_compute; reflexivity).
  assert (H6 : box_sum (SeasonalAggregator one_report 0%nat 4%nat)
                 (fst (half_window 1)) (snd (half_window 1)) 9 19 <= Int32.max_signed).
  { change (fst (half_window 1)) with 1. change (snd (half_window 1)) with 1.
    rewrite E. vm_compute. discriminate. }
  repeat (split; [assumption|]).
  rewrite (output_is_centred_box one_report (fun _ _ => true) 1%nat 0%nat 4%nat 9 19
             H0 H1 H2 H3 H4 H5 H6).
  exact E.
Defined.

(** X2. For non-negative counts, a wider window never counts fewer
    reports than a narrower one at the same cell: as long as the total of
    the wider window fits 32 bits, the output of window [j] is at most the
    output of window [j'] for [j <= j']. *)
Theorem wider_window_counts_more (tin : tensor4) (ls_mask : Z -> Z -> bool)
    (j j' iyr iseason : nat) (lat lon : Z) :
  (j <= j')%nat -> (j' < sh0)%nat -> (iyr < sh1)%nat -> (iseason < sh2)%nat ->
  0 <= lat < sh3 -> 0 <= lon < sh4 ->
  (forall imo la lo, 0 <= tin iyr imo la lo) ->
  window_total tin j' iyr iseason lat lon <= Int32.max_signed ->
  convolve_grids tin ls_mask j iyr iseason lat lon
  <= convolve_grids tin ls_mask j' iyr iseason lat lon.
Proof.
  intros Hjj Hj' Hy Hs Hlat Hlon H0 Hmax.
  assert (Hj : (j < sh0)%nat) by lia.
  assert (Hle : window_total tin j iyr iseason lat lon
                <= window_total tin j' iyr iseason lat lon).
  { unfold window_total. rewrite !convolve2d_box by assumption.
    destruct (half_window_le j j' Hjj Hj') as [Hp Hq].
    destruct (half_window_bounds j Hj) as [Hp0 Hq0].
    apply box_sum_le; [|lia|lia].
    intros la lo. apply SeasonalAggregator_nonneg, H0. }
  rewrite (convolve_grids_exact tin ls_mask j) by (assumption || lia).
  rewrite (convolve_grids_exact tin ls_mask j') by assumption.
  apply Z.mul_le_mono_nonneg_r; [destruct (ls_mask lat lon); simpl; lia | exact Hle].
Qed.

Lemma wider_window_counts_more_witness :
  convolve_grids one_report (fun _ _ => true) 0%nat 0%nat 4%nat 11 21
  <= convolve_grids one_report (fun _ _ => true) 1%nat 0%nat 4%nat 11 21.
Proof.
  apply wider_window_counts_more;
    try (unfold sh0, sh1, sh2, sh3, sh4; lia).
  - intros imo la lo. unfold one_report.
    destruct ((0 =? 0)%nat && (imo =? 0)%nat && (la =? 10) && (lo =? 20)); lia.
  - vm_compute. discriminate.
Defined.

(** X3. With the circular boundary no report is lost or gained at the
    edges of the grid: summed over the whole grid, the convolution with
    window [j] is the total of the input times the number of cells of the
    window. *)
Theorem convolution_conserves_reports (t : grid) (j : nat) :
  (j < sh0)%nat ->
  grid_total (convolve2d sh3 sh4 t (a j)) = rows (a j) * cols (a j) * grid_total t.
Proof.
  intros Hj.
  destruct (a_half_window j) as [Hr Hc]. rewrite Hr, Hc.
  destruct (half_window_bounds j Hj) as [Hp Hq].
  set (p := fst (half_window j)) in *. set (q := snd (half_window j)) in *.
  unfold grid_total.
  rewrite (sum_upto_ext_in _ _
             (fun lat => sum_upto (Z.to_nat sh4) (fun lon => box_sum t p q lat lon))).
  2:{ intros lat Hlat. apply sum_upto_ext_in. intros lon Hlon.
      apply convolve2d_box; [assumption | unfold sh3 in *; lia | unfold sh4 in *; lia]. }
  unfold box_sum.
  (* the sums over the box are moved outside of the sums over the grid *)
  rewrite (sum_upto_ext _ _
             (fun lat => sum_upto (Z.to_nat (2 * p + 1)) (fun d =>
                sum_upto (Z.to_nat sh4) (fun lon =>
                  sum_upto (Z.to_nat (2 * q + 1)) (fun e =>
                    t ((lat - p + d) mod sh3) ((lon - q + e) mod sh4))))))
    by (intros lat; apply sum_upto_swap).
  rewrite sum_upto_swap.
  rewrite (sum_upto_ext _ _
             (fun d => sum_upto (Z.to_nat (2 * q + 1)) (fun e =>
                sum_upto (Z.to_nat sh3) (fun lat =>
                  sum_upto (Z.to_nat sh4) (fun lon =>
                    t ((lat - p + d) mod sh3) ((lon - q + e) mod sh4)))))).
  2:{ intros d.
      rewrite (sum_upto_ext _ _
                 (fun lat => sum_upto (Z.to_nat (2 * q + 1)) (fun e =>
                    sum_upto (Z.to_nat sh4) (fun lon =>
                      t ((lat - p + d) mod sh3) ((lon - q + e) mod sh4)))))
        by (intros lat; apply sum_upto_swap).
      apply sum_upto_swap. }
  (* each shifted copy of the grid has the total of the grid *)
  rewrite (sum_upto_ext _ _ (fun _ => Z.of_nat (Z.to_nat (2 * q + 1)) *
             sum_upto (Z.to_nat sh3) (fun lat => sum_upto (Z.to_nat sh4) (fun lon => t lat lon)))).
  2:{ intros d. rewrite <- sum_upto_const. apply sum_upto_ext. intros e.
      rewrite (sum_upto_ext _ _
                 (fun lat => (fun r => sum_upto (Z.to_nat sh4) (fun lon => t r lon))
                               ((lat + (d - p)) mod sh3))).
      - apply (sum_upto_shift_mod sh3 (d - p)
                 (fun r => sum_upto (Z.to_nat sh4) (fun lon => t r lon))).
        unfold sh3. lia.
      - intros lat. cbv beta.
        replace (lat - p + d) with (lat + (d - p)) by lia.
        rewrite (sum_upto_ext _ _
                   (fun lon => t ((lat + (d - p)) mod sh3) ((lon + (e - q)) mod sh4))).
        + apply (sum_upto_shift_mod sh4 (e - q) (t ((lat + (d - p)) mod sh3))).
          unfold sh4. lia.
        + intros lon. f_equal. f_equal. lia. }
  rewrite sum_upto_const. rewrite !Z2Nat.id by lia. lia.
Qed.

Lemma convolution_conserves_reports_witness :
  (6 < sh0)%nat /\
  grid_total (convolve2d sh3 sh4 (one_report 0%nat 0%nat) (a 6)) =
  13 * 27 * grid_total (one_report 0%nat 0%nat).
Proof.
  assert (H : (6 < sh0)%nat) by (unfold sh0; lia).
  split; [exact H|].
  exact (convolution_conserves_reports (one_report 0%nat 0%nat) 6%nat H).
Defined.

Lemma fold_add_nonempty (l : list Z) (acc : Z) :
  l <> [] -> fold_left Int32.add l acc = Int32.wrap (acc + sumZ l).
Proof.
  intros H. destruct l as [|x l]; [congruence|]. simpl.
  rewrite <- (wrap_small (fold_left Int32.add l (Int32.add acc x))).
  - rewrite fold_add_wrap. unfold Int32.add. rewrite wrap_add_l. f_equal. lia.
  - apply fold_add_in_range, wrap_in_range.
Qed.

(** X4. The accumulation cell is not idempotent: run on output arrays that
    already hold values, it adds the convolved grids to them (in [int32]),
    in every slice of the output shape, and leaves everything outside of
    the shape as it is; a second run on its own output doubles it. *)
Theorem rerun_accumulates (tin : tensor4) (ls_mask : Z -> Z -> bool) (tout : tensor5)
    (j iyr iseason : nat) (lat lon : Z) :
  loop_windows tin ls_mask tout j iyr iseason lat lon =
  if in_shape j iyr iseason
  then Int32.add (tout j iyr iseason lat lon)
                 (convolve_grids tin ls_mask j iyr iseason lat lon)
  else tout j iyr iseason lat lon.
Proof.
  rewrite loop_windows_at, convolve_grids_at. unfold in_shape.
  destruct ((j <? sh0)%nat && (iyr <? sh1)%nat) eqn:E1; cbn [andb]; [|reflexivity].
  destruct (Nat.ltb_spec iseason sh2) as [Hs|Hs]; [|reflexivity].
  unfold accumulate.
  assert (Hne : nth iseason months [] <> []).
  { unfold sh2 in Hs. do 5 (destruct iseason as [|iseason]; [discriminate|]). lia. }
  rewrite !fold_add_nonempty
    by (intros E; apply map_eq_nil in E; contradiction).
  unfold Int32.add. rewrite wrap_add_r. f_equal. 
Qed.

(* ================================================================== *)
(** ** The cells of the binning *)
(* ================================================================== *)

Lemma unit_edges_S (first : Z) (n : nat) :
  unit_edges first (S n) = inject_Z first :: unit_edges (first + 1) n.
Proof.
  unfold unit_edges. cbn [seq map]. rewrite <- seq_shift, !map_map.
  f_equal; [f_equal; lia|]. apply map_ext. intros i. f_equal. lia.
Qed.

Lemma lats_unit_edges : T.lats = unit_edges (-90) 180.
Proof. vm_compute. reflexivity. Qed.

Lemma lons_unit_edges : T.lons = unit_edges 0 360.
Proof. vm_compute. reflexivity. Qed.

Lemma Qle_bool_inject_Z (k : Z) (x : Q) : Qle_bool (inject_Z k) x = (k <=? Qfloor x).
Proof.
  destruct (Z.leb_spec k (Qfloor x)) as [H|H].
  - apply Qle_bool_iff. apply Qle_trans with (inject_Z (Qfloor x)).
    + rewrite <- Zle_Qle. exact H.
    + apply Qfloor_le.
  - destruct (Qle_bool (inject_Z k) x) eqn:E; [|reflexivity].
    apply Qle_bool_iff in E. apply Qfloor_resp_le in E. rewrite Qfloor_Z in E. lia.
Qed.

Lemma digitize_unit_edges (x : Q) (n : nat) :
  forall first,
    T.digitize x (unit_edges first n) =
    Z.to_nat (Z.max 0 (Z.min (Z.of_nat n) (Qfloor x - first + 1))).
Proof.
  induction n as [|n IH]; intros first; [cbn; lia|].
  rewrite unit_edges_S. cbn [T.digitize]. rewrite Qle_bool_inject_Z.
  destruct (Z.leb_spec first (Qfloor x)); [rewrite IH|]; lia.
Qed.

Lemma nth_error_unit_edges (first : Z) (n i : nat) :
  (i < n)%nat -> nth_error (unit_edges first n) i = Some (inject_Z (first + Z.of_nat i)).
Proof.
  intros H. unfold unit_edges.
  rewrite !nth_error_map, nth_error_seq.
  destruct (Nat.ltb_spec i n); [reflexivity|lia].
Qed.

Lemma length_unit_edges (first : Z) (n : nat) : length (unit_edges first n) = n.
Proof. unfold unit_edges. rewrite !length_map, length_seq. reflexivity. Qed.

Lemma last_unit_edges (n : nat) :
  forall first d, last (unit_edges first (S n)) d = inject_Z (first + Z.of_nat n).
Proof.
  induction n as [|n IH]; intros first d.
  - unfold unit_edges. cbn. f_equal.
  - rewrite unit_edges_S. specialize (IH (first + 1) d).
    rewrite unit_edges_S in *. cbn [last] in *. rewrite IH. f_equal. lia.
Qed.

(** The label of a coordinate on unit edges. *)
Lemma bin_label_unit_edges (x : Q) (first : Z) (n : nat) :
  (0 < n)%nat ->
  T.bin_label x (unit_edges first n) =
  Some (inject_Z (unit_label first (first + Z.of_nat n - 1) x)).
Proof.
  intros Hn. unfold unit_label.
  destruct (Z.ltb_spec (Qfloor x) first) as [H|H].
  - destruct n as [|n]; [lia|].
    replace (first + Z.of_nat (S n) - 1) with (first + Z.of_nat n) by lia.
    rewrite <- (last_unit_edges n first (inject_Z first)).
    rewrite unit_edges_S. apply bin_label_below_first.
    apply Qlt_le_trans with (inject_Z (Qfloor x + 1)); [apply Qlt_floor|].
    rewrite <- Zle_Qle. lia.
  - unfold T.bin_label. rewrite digitize_unit_edges.
    set (d := Z.min (Z.of_nat n) (Qfloor x - first + 1)).
    assert (Hd : 1 <= d <= Z.of_nat n) by (unfold d; lia).
    replace (Z.of_nat (Z.to_nat (Z.max 0 d)) - 1) with (Z.of_nat (Z.to_nat (d - 1))) by lia.
    rewrite getitem_nat by (rewrite length_unit_edges; lia).
    rewrite nth_error_unit_edges by lia.
    f_equal. f_equal. unfold d. lia.
Qed.

(** X5. The label that the binning gives to a latitude is its floor,
    capped at the last edge 89 (so that the pole, 90, falls in the last
    cell); a latitude below -90 gets the last edge 89 as well.  In the same
    way a longitude gets its floor capped at 359, and 359 below 0. *)
Theorem label_is_capped_floor (r : T.report) :
  T.LAT_BIN r = Some (inject_Z (unit_label (-90) 89 (T.LAT r))) /\
  T.LON_BIN r = Some (inject_Z (unit_label 0 359 (T.LON r))).
Proof.
  unfold T.LAT_BIN, T.LON_BIN. rewrite lats_unit_edges, lons_unit_edges. split.
  - exact (bin_label_unit_edges (T.LAT r) (-90) 180 ltac:(lia)).
  - exact (bin_label_unit_edges (T.LON r) 0 360 ltac:(lia)).
Qed.

Lemma unit_label_range (first last : Z) (x : Q) :
  first <= last -> first <= unit_label first last x <= last.
Proof. intros H. unfold unit_label. destruct (Z.ltb_spec (Qfloor x) first); lia. Qed.

Lemma Qeq_bool_inject_Z (x y : Z) : Qeq_bool (inject_Z x) (inject_Z y) = (x =? y).
Proof.
  destruct (Z.eqb_spec x y) as [->|H].
  - apply Qeq_bool_iff. reflexivity.
  - destruct (Qeq_bool (inject_Z x) (inject_Z y)) eqn:E; [|reflexivity].
    apply Qeq_bool_iff in E. unfold Qeq in E. simpl in E. lia.
Qed.

Lemma at_index_unit_edges (first : Z) (n : nat) (i : Z) :
  0 <= i < Z.of_nat n -> T.at_index (unit_edges first n) i = Some (inject_Z (first + i)).
Proof.
  intros H. unfold T.at_index. destruct (Z.ltb_spec i 0); [lia|].
  rewrite nth_error_unit_edges by lia. f_equal. f_equal. lia.
Qed.

Lemma sum_upto_indicator (n : nat) (c v : Z) :
  0 <= c < Z.of_nat n -> sum_upto n (fun i => if i =? c then v else 0) = v.
Proof.
  induction n as [|n IH]; intros H; [lia|]. cbn [sum_upto].
  destruct (Z.eqb_spec (Z.of_nat n) c) as [E|E].
  - rewrite (sum_upto_ext_in n _ (fun _ => 0)); [rewrite sum_upto_zero; lia|].
    intros i Hi. destruct (Z.eqb_spec i c); [lia|reflexivity].
  - rewrite IH by lia. lia.
Qed.

Lemma sum2_indicator (n k : nat) (c d v : Z) :
  0 <= c < Z.of_nat n -> 0 <= d < Z.of_nat k ->
  sum_upto n (fun i => sum_upto k (fun j => if (i =? c) && (j =? d) then v else 0)) = v.
Proof.
  intros Hc Hd.
  rewrite (sum_upto_ext _ _ (fun i => if i =? c then v else 0)).
  - apply sum_upto_indicator, Hc.
  - intros i. destruct (i =? c); cbn [andb].
    + apply sum_upto_indicator, Hd.
    + apply sum_upto_zero.
Qed.

Lemma length_filter_cons {A : Type} (p : A -> bool) (x : A) (l : list A) :
  Z.of_nat (length (filter p (x :: l))) = Z.b2z (p x) + Z.of_nat (length (filter p l)).
Proof. cbn [filter]. destruct (p x); cbn [length Z.b2z]; lia. Qed.

(** Counting a list cell by cell, when every element is in one cell
    exactly, or in none. *)
Lemma count_partition {A : Type} (p : Z -> Z -> A -> bool) (q : A -> bool)
    (n k : nat) (l : list A) :
  (forall r, In r l ->
     sum_upto n (fun i => sum_upto k (fun j => Z.b2z (p i j r))) = Z.b2z (q r)) ->
  sum_upto n (fun i => sum_upto k (fun j => Z.of_nat (length (filter (p i j) l)))) =
  Z.of_nat (length (filter q l)).
Proof.
  induction l as [|r l IH]; intros H.
  - cbn [filter length Z.of_nat].
    rewrite (sum_upto_ext _ _ (fun _ => 0)); [apply sum_upto_zero|].
    intros i. apply sum_upto_zero.
  - rewrite length_filter_cons.
    rewrite <- IH by (intros r' Hr'; apply H; right; exact Hr').
    rewrite <- (H r) by (left; reflexivity).
    rewrite <- sum_upto_add. apply sum_upto_ext; intros i.
    rewrite <- sum_upto_add. apply sum_upto_ext; intros j.
    apply length_filter_cons.
Qed.

Lemma in_group_unit (yr mo i j : Z) (r : T.report) :
  T.in_group yr mo (inject_Z (-90 + i)) (inject_Z (0 + j)) r =
  in_year_month yr mo r
  && ((i =? unit_label (-90) 89 (T.LAT r) + 90)
  && (j =? unit_label 0 359 (T.LON r))).
Proof.
  unfold T.in_group, in_year_month.
  unfold T.LAT_BIN, T.LON_BIN. rewrite lats_unit_edges, lons_unit_edges.
  rewrite (bin_label_unit_edges (T.LAT r) (-90) 180) by lia.
  rewrite (bin_label_unit_edges (T.LON r) 0 360) by lia.
  change (-90 + Z.of_nat 180 - 1) with 89. change (0 + Z.of_nat 360 - 1) with 359.
  cbn [T.label_is]. rewrite !Qeq_bool_inject_Z, <- !andb_assoc.
  f_equal. f_equal. f_equal.
  - destruct (Z.eqb_spec (unit_label (-90) 89 (T.LAT r)) (-90 + i)),
             (Z.eqb_spec i (unit_label (-90) 89 (T.LAT r) + 90)); lia || reflexivity.
  - destruct (Z.eqb_spec (unit_label 0 359 (T.LON r)) (0 + j)),
             (Z.eqb_spec j (unit_label 0 359 (T.LON r))); lia || reflexivity.
Qed.

(** Over the 180 x 360 cells, the group sizes of one year and month add up
    to the number of reports of that year and month. *)
Lemma groupby_cells (l : list T.report) (yr mo : Z) :
  sum_upto 180 (fun i => sum_upto 360 (fun j =>
    Z.of_nat (T.groupby_size l yr mo (inject_Z (-90 + i)) (inject_Z (0 + j))))) =
  Z.of_nat (length (filter (in_year_month yr mo) l)).
Proof.
  unfold T.groupby_size.
  apply (count_partition
           (fun i j => T.in_group yr mo (inject_Z (-90 + i)) (inject_Z (0 + j)))).
  intros r _.
  pose proof (unit_label_range (-90) 89 (T.LAT r) ltac:(lia)).
  pose proof (unit_label_range 0 359 (T.LON r) ltac:(lia)).
  rewrite (sum_upto_ext _ _
             (fun i => sum_upto 360 (fun j =>
                if (i =? unit_label (-90) 89 (T.LAT r) + 90)
                   && (j =? unit_label 0 359 (T.LON r))
                then Z.b2z (in_year_month yr mo r) else 0))).
  - apply sum2_indicator; lia.
  - intros i. apply sum_upto_ext; intros j. rewrite in_group_unit.
    destruct (in_year_month yr mo r), ((i =? _) && (j =? _)); reflexivity.
Qed.

Lemma values_total (df : list T.report) (counts : Z -> Z -> Q -> Q -> nat)
    (iyr imo : nat) (yr mo : Z) :
  nth_error (T.years df) iyr = Some yr -> nth_error T.months imo = Some mo ->
  grid_total (T.values df counts iyr imo) =
  sum_upto 180 (fun i => sum_upto 360 (fun j =>
    Z.of_nat (counts yr mo (inject_Z (-90 + i)) (inject_Z (0 + j))))).
Proof.
  intros Hy Hm. unfold grid_total. change (Z.to_nat sh3) with 180%nat.
  change (Z.to_nat sh4) with 360%nat.
  apply sum_upto_ext_in; intros i Hi. apply sum_upto_ext_in; intros j Hj.
  unfold T.values. rewrite Hy, Hm, lats_unit_edges, lons_unit_edges.
  rewrite !at_index_unit_edges by lia. reflexivity.
Qed.

(** X6. Binning loses no report and counts none twice: over the cells of
    the slice of a year and a month of the axes, [nreports] adds up to the
    number of reports of that year and month, wherever their coordinates
    lie, and [nprecip] to the number of those with [WW >= 50]. *)
Theorem every_report_in_one_cell (df : list T.report) (iyr imo : nat) (yr mo : Z) :
  nth_error (T.years df) iyr = Some yr -> nth_error T.months imo = Some mo ->
  grid_total (T.nreports df iyr imo) =
    Z.of_nat (length (filter (in_year_month yr mo) df)) /\
  grid_total (T.nprecip df iyr imo) =
    Z.of_nat (length (filter (in_year_month yr mo) (filter T.at_least_drizzle df))).
Proof.
  intros Hy Hm. unfold T.nreports, T.nprecip, T.df_reports, T.df_precip.
  rewrite !(values_total df _ iyr imo yr mo Hy Hm), !groupby_cells. split; reflexivity.
Qed.

Lemma every_report_in_one_cell_witness :
  nth_error (T.years two_reports) 0 = Some 1950 /\
  nth_error T.months 0 = Some 1 /\
  grid_total (T.nreports two_reports 0%nat 0%nat) = 2 /\
  grid_total (T.nprecip two_reports 0%nat 0%nat) = 1.
Proof.
  assert (Hy : nth_error (T.years two_reports) 0 = Some 1950) by reflexivity.
  assert (Hm : nth_error T.months 0 = Some 1) by reflexivity.
  split; [exact Hy|]. split; [exact Hm|].
  exact (every_report_in_one_cell two_reports 0%nat 0%nat 1950 1 Hy Hm).
Defined.

Lemma np_arange_length (start stop : Z) :
  length (T.np_arange start stop 1) = Z.to_nat (stop - start).
Proof.
  unfold T.np_arange. rewrite length_map, length_seq, Z.div_1_r. f_equal. lia.
Qed.

Lemma np_arange_nth (start stop : Z) (i : nat) :
  (i < Z.to_nat (stop - start))%nat ->
  nth_error (T.np_arange start stop 1) i = Some (start + Z.of_nat i).
Proof.
  intros H. unfold T.np_arange. rewrite nth_error_map, nth_error_seq, Z.div_1_r.
  replace (stop - start + 1 - 1) with (stop - start) by lia.
  destruct (Nat.ltb_spec i (Z.to_nat (stop - start))); [|lia].
  cbn. f_equal. lia.
Qed.

Lemma fold_left_min_le (l : list Z) :
  forall a, fold_left Z.min l a <= a /\ forall x, In x l -> fold_left Z.min l a <= x.
Proof.
  induction l as [|y l IH]; intros a; simpl; [split; [lia|intros x []]|].
  destruct (IH (Z.min a y)) as [H1 H2]. split; [lia|].
  intros x [<-|Hx]; [lia|apply H2, Hx].
Qed.

Lemma fold_left_max_ge (l : list Z) :
  forall a, a <= fold_left Z.max l a /\ forall x, In x l -> x <= fold_left Z.max l a.
Proof.
  induction l as [|y l IH]; intros a; simpl; [split; [lia|intros x []]|].
  destruct (IH (Z.max a y)) as [H1 H2]. split; [lia|].
  intros x [<-|Hx]; [lia|apply H2, Hx].
Qed.

(** The year axis runs from the earliest to the latest year of the
    reports, without gap. *)
Lemma years_axis (r0 : T.report) (rs : list T.report) :
  exists y0 y1 : Z,
    (forall r, In r (r0 :: rs) -> y0 <= T.YR r <= y1) /\
    length (T.years (r0 :: rs)) = Z.to_nat (y1 - y0 + 1) /\
    forall i, (i < Z.to_nat (y1 - y0 + 1))%nat ->
              nth_error (T.years (r0 :: rs)) i = Some (y0 + Z.of_nat i).
Proof.
  exists (fold_left Z.min (map T.YR rs) (T.YR r0)),
         (fold_left Z.max (map T.YR rs) (T.YR r0)).
  destruct (fold_left_min_le (map T.YR rs) (T.YR r0)) as [Hm0 Hm].
  destruct (fold_left_max_ge (map T.YR rs) (T.YR r0)) as [HM0 HM].
  split; [|split].
  - intros r [<-|Hr]; [lia|].
    pose proof (in_map T.YR rs r Hr) as Hin.
    specialize (Hm _ Hin). specialize (HM _ Hin). lia.
  - cbn [T.years]. rewrite np_arange_length. f_equal. lia.
  - intros i Hi. cbn [T.years]. apply np_arange_nth. lia.
Qed.

(** X7. No report is lost between the table of reports and the dense
    array: when the months of the reports are 1 to 12, the counts of
    [nreports] over all the years of the axis, the twelve months and the
    cells of the grid add up to the number of reports. *)
Theorem array_holds_every_report (df : list T.report) :
  df <> [] ->
  (forall r, In r df -> 1 <= T.MO r <= 12) ->
  sum_upto (length (T.years df)) (fun iyr =>
    sum_upto 12 (fun imo =>
      grid_total (T.nreports df (Z.to_nat iyr) (Z.to_nat imo)))) =
  Z.of_nat (length df).
Proof.
  intros Hne Hmo. destruct df as [|r0 rs]; [congruence|].
  destruct (years_axis r0 rs) as [y0 [y1 [Hyr [Hlen Hnth]]]].
  set (df := r0 :: rs) in *.
  rewrite (sum_upto_ext_in _ _
             (fun iyr => sum_upto 12 (fun imo =>
                Z.of_nat (length (filter (in_year_month (y0 + iyr) (imo + 1)) df))))).
  - rewrite (count_partition (fun i j => in_year_month (y0 + i) (j + 1)) (fun _ => true)).
    + f_equal. f_equal. clear. induction df as [|r l IH]; simpl; congruence.
    + intros r Hr. specialize (Hyr r Hr). specialize (Hmo r Hr).
      rewrite (sum_upto_ext _ _
                 (fun i => sum_upto 12 (fun j =>
                    if (i =? T.YR r - y0) && (j =? T.MO r - 1) then 1 else 0))).
      * apply sum2_indicator; lia.
      * intros i. apply sum_upto_ext; intros j. unfold in_year_month.
        destruct (Z.eqb_spec (T.YR r) (y0 + i)), (Z.eqb_spec i (T.YR r - y0)); try lia;
          destruct (Z.eqb_spec (T.MO r) (j + 1)), (Z.eqb_spec j (T.MO r - 1)); try lia;
          reflexivity.
  - intros iyr Hiyr. apply sum_upto_ext_in; intros imo Himo.
    unfold T.nreports, T.df_reports.
    rewrite (values_total df _ (Z.to_nat iyr) (Z.to_nat imo) (y0 + iyr) (imo + 1)).
    + apply groupby_cells.
    + rewrite Hnth by lia. f_equal. lia.
    + unfold T.months. rewrite np_arange_nth by lia. f_equal. lia.
Qed.

Lemma array_holds_every_report_witness :
  two_reports <> [] /\
  sum_upto (length (T.years two_reports)) (fun iyr =>
    sum_upto 12 (fun imo =>
      grid_total (T.nreports two_reports (Z.to_nat iyr) (Z.to_nat imo)))) = 2.
Proof.
  assert (Hne : two_reports <> []) by discriminate.
  split; [exact Hne|].
  apply (array_holds_every_report two_reports Hne).
  intros r [<-|[<-|[]]]; simpl; lia.
Defined.

(* ================================================================== *)
(** ** The exclusions of the processing notebook *)
(* ================================================================== *)

Lemma filter_filter {A : Type} (p q : A -> bool) (l : list A) :
  filter p (filter q l) = filter (fun x => q x && p x) l.
Proof.
  induction l as [|x l IH]; simpl; [reflexivity|].
  destruct (q x); simpl; [destruct (p x)|]; rewrite IH; reflexivity.
Qed.

(** The four exclusions are one filter. *)
Lemma exclusions_filter {row : Type} (PT IX N WW : row -> Z) (coads_df : list row) :
  P.exclusions row PT IX N WW coads_df = filter (kept PT IX N WW) coads_df.
Proof.
  unfold P.exclusions, P.loc. cbv zeta. rewrite !filter_filter.
  apply filter_ext. intros r. unfold kept. rewrite !andb_assoc. reflexivity.
Qed.

(** X8. The exclusions can be applied to the files one by one or to
    their concatenation, with the same result, and applying them again
    changes nothing. *)
Theorem exclusions_concat_idempotent {row : Type} (PT IX N WW : row -> Z)
    (df1 df2 : list row) :
  P.exclusions row PT IX N WW (df1 ++ df2) =
    P.exclusions row PT IX N WW df1 ++ P.exclusions row PT IX N WW df2 /\
  P.exclusions row PT IX N WW (P.exclusions row PT IX N WW df1) =
    P.exclusions row PT IX N WW df1.
Proof.
  rewrite !exclusions_filter. split.
  - apply filter_app.
  - rewrite filter_filter. apply filter_ext. intros r. apply andb_diag.
Qed.

Lemma clean_valid (x : option Z) :
  valid_code x ->
  P.clean x = match x with Some v => v | None => -1 end.
Proof.
  destruct x as [v|]; [|reflexivity]. cbn [valid_code]. intros H.
  unfold P.clean, P.fillna, P.astype_int8.
  rewrite astype_int32_small
    by (unfold Int32.in_range, Int32.min_signed, Int32.max_signed; lia).
  change (2 ^ 7) with 128. change (2 ^ 8) with 256.
  rewrite Z.mod_small by lia. lia.
Qed.

(** X9. In terms of the fields of the CSV file (empty, or a code from 0
    to 127): a row is kept exactly when its platform type is present and
    is neither 2 nor 3, its indicator [IX] is missing or below 4, and its
    cloud cover [N] or its present weather [WW] is present.  A row with a
    missing [IX] is thus not excluded. *)
Theorem kept_in_csv_terms {row : Type} (PT IX N WW : row -> Z) (coads_df : list row)
    (r : row) (pt ix n ww : option Z) :
  valid_code pt -> valid_code ix -> valid_code n -> valid_code ww ->
  PT r = P.clean pt -> IX r = P.clean ix -> N r = P.clean n -> WW r = P.clean ww ->
  (In r (P.exclusions row PT IX N WW coads_df) <->
   In r coads_df
   /\ (exists v, pt = Some v /\ v <> 2 /\ v <> 3)
   /\ (ix = None \/ exists v, ix = Some v /\ v < 4)
   /\ (n <> None \/ ww <> None)).
Proof.
  intros Vpt Vix Vn Vww Ept Eix En Eww.
  rewrite exclusions_filter, filter_In. unfold kept.
  rewrite Ept, Eix, En, Eww, !clean_valid by assumption.
  rewrite !andb_true_iff, orb_true_iff, !negb_true_iff, !Z.eqb_neq, Z.ltb_lt.
  assert (Hpt : (match pt with Some v => v | None => -1 end <> -1
                 /\ match pt with Some v => v | None => -1 end <> 2
                 /\ match pt with Some v => v | None => -1 end <> 3)
                <-> exists v, pt = Some v /\ v <> 2 /\ v <> 3).
  { destruct pt as [v|]; cbn [valid_code] in Vpt; split.
    - intros [_ [H2 H3]]. exists v. auto.
    - intros [w [E [H2 H3]]]. injection E as <-. repeat split; lia.
    - intros [H _]. congruence.
    - intros [w [E _]]. discriminate E. }
  assert (Hix : match ix with Some v => v | None => -1 end < 4
                <-> (ix = None \/ exists v, ix = Some v /\ v < 4)).
  { destruct ix as [v|]; split.
    - intros H. right. exists v. auto.
    - intros [E|[w [E H]]]; [discriminate E|]. injection E as <-. exact H.
    - intros _. left. reflexivity.
    - intros _. lia. }
  assert (Hmiss : forall x, valid_code x ->
                    (match x with Some v => v | None => -1 end <> -1 <-> x <> None)).
  { intros [v|] V; cbn [valid_code] in V; split; intros H; congruence || lia. }
  rewrite <- Hpt, Hix, <- (Hmiss n Vn), <- (Hmiss ww Vww). tauto.
Qed.

Lemma kept_in_csv_terms_witness :
  In (P.clean (Some 1), P.clean None, P.clean (Some 8), P.clean None)
     (P.exclusions codes codes_PT codes_IX codes_N codes_WW
        [ (P.clean (Some 1), P.clean None, P.clean (Some 8), P.clean None);
          (P.clean (Some 2), P.clean (Some 1), P.clean (Some 8), P.clean (Some 60)) ]).
Proof.
  apply (kept_in_csv_terms codes_PT codes_IX codes_N codes_WW _ _
           (Some 1) None (Some 8) None);
    try reflexivity; try (cbn [valid_code]; lia); try exact I.
  split; [left; reflexivity|].
  split; [exists 1; repeat split; lia|].
  split; [left; reflexivity | left; discriminate].
Defined.

(** X10. With the cleaned present-weather column, a report counts as
    precipitating exactly when its [WW] field is present with a code of at
    least 50: the notation -1 of a missing value never counts, so that a
    report kept for its cloud cover alone is a report without
    precipitation. *)
Theorem drizzle_iff_present_code (r : T.report) (ww : option Z) :
  valid_code ww -> T.WW r = Some (P.clean ww) ->
  (T.at_least_drizzle r = true <-> exists v, ww = Some v /\ 50 <= v).
Proof.
  intros V E. unfold T.at_least_drizzle. rewrite E, clean_valid by assumption.
  rewrite Z.leb_le. destruct ww as [v|]; split.
  - intros H. exists v. auto.
  - intros [w [Ew H]]. injection Ew as <-. exact H.
  - lia.
  - intros [w [Ew _]]. discriminate Ew.
Qed.

Lemma drizzle_iff_present_code_witness :
  valid_code (Some 60) /\
  T.at_least_drizzle (T.mk_report 1950 1 0 0 (Some (P.clean (Some 60)))) = true.
Proof.
  assert (V : valid_code (Some 60)) by (cbn [valid_code]; lia).
  split; [exact V|].
  apply (drizzle_iff_present_code (T.mk_report 1950 1 0 0 (Some (P.clean (Some 60))))
           (Some 60) V eq_refl).
  exists 60. split; [reflexivity|lia].
Defined.

(* ================================================================== *)
(** ** Invariants of the composite *)
(* ================================================================== *)

Lemma in_passes (sthresh : C.float32) (i : nat) :
  In (sthresh, i) passes -> In sthresh C.sthresh_list /\ (i < sh0)%nat.
Proof.
  rewrite <- passes_of_loops, in_flat_map. intros [t [Ht Hin]].
  apply in_map_iff in Hin. destruct Hin as [w [E Hw]].
  injection E as -> ->. split; [exact Ht|].
  unfold C.windows in Hw. apply in_rev, in_seq in Hw. lia.
Qed.

(** X11. The three composite arrays stay aligned.  In every cell, either
    the window index is -1, the fraction and the standard error are NaN and
    no pass is eligible; or the index is a window 0..6, the composite
    fraction and standard error are those of that window, and that window
    is eligible at one of the thresholds. *)
Theorem composite_arrays_aligned (cell : Type) (f s : nat -> cell -> C.float32) (c : cell) :
  (C.rcomp cell (C.composites cell f s) c = -1 /\
   C.fcomp cell (C.composites cell f s) c = S754_nan /\
   C.scomp cell (C.composites cell f s) c = S754_nan /\
   forall sthresh i, In sthresh C.sthresh_list -> (i < sh0)%nat ->
                     C.m cell f s sthresh i c = false)
  \/
  (exists (i : nat) (sthresh : C.float32),
     (i < sh0)%nat /\ In sthresh C.sthresh_list /\
     C.rcomp cell (C.composites cell f s) c = Z.of_nat i /\
     C.fcomp cell (C.composites cell f s) c = f i c /\
     C.scomp cell (C.composites cell f s) c = s i c /\
     C.m cell f s sthresh i c = true).
Proof.
  pose proof (composites_last cell f s c) as E. unfold at_cell, last_eligible in E.
  destruct (find (eligible f s c) (rev passes)) as [[sthresh i]|] eqn:F.
  - right. apply find_some in F. destruct F as [Hin Hel].
    apply in_rev, in_passes in Hin. destruct Hin as [Ht Hi].
    exists i, sthresh.
    pose proof (f_equal (fun t => fst (fst t)) E) as Ef.
    pose proof (f_equal (fun t => snd (fst t)) E) as Es.
    pose proof (f_equal snd E) as Er.
    cbn beta iota delta [fst snd] in Ef, Es, Er.
    repeat split; assumption.
  - left.
    pose proof (f_equal (fun t => fst (fst t)) E) as Ef.
    pose proof (f_equal (fun t => snd (fst t)) E) as Es.
    pose proof (f_equal snd E) as Er.
    cbn beta iota delta [fst snd] in Ef, Es, Er.
    repeat split; try assumption.
    intros sthresh i Ht Hi.
    apply (find_none _ _ F (sthresh, i)). apply in_rev. rewrite rev_involutive.
    rewrite <- passes_of_loops. apply in_flat_map. exists sthresh. split; [exact Ht|].
    apply in_map. unfold C.windows. apply in_rev. rewrite rev_involutive.
    apply in_seq. lia.
Qed.

Lemma find_in_block {A : Type} (p : A * nat -> bool) (x : A) (rest : list (A * nat))
    (n : nat) :
  forall start i,
    (start <= i < start + n)%nat ->
    p (x, i) = true ->
    (forall k, (start <= k < i)%nat -> p (x, k) = false) ->
    find p (map (pair x) (seq start n) ++ rest) = Some (x, i).
Proof.
  induction n as [|n IH]; intros start i Hi Hp Hk; [lia|].
  cbn [seq map app find].
  destruct (Nat.eq_dec start i) as [->|Hne]; [rewrite Hp; reflexivity|].
  rewrite Hk by lia. apply IH; [lia|exact Hp|]. intros k Hk'. apply Hk. lia.
Qed.

(** X12. What wins is the narrowest window of the strictest threshold:
    when window [i] passes the test of the last threshold, 0.001 (or the
    low-signal test), and no narrower window does, the composite of the
    cell is that of window [i], whatever the wider windows and the other
    thresholds gave. *)
Theorem narrowest_window_of_last_threshold (cell : Type)
    (f s : nat -> cell -> C.float32) (c : cell) (i : nat) :
  (i < sh0)%nat ->
  C.m cell f s (C.to_float32 (C.py_float 1 1000)) i c = true ->
  (forall k, (k < i)%nat -> C.m cell f s (C.to_float32 (C.py_float 1 1000)) k c = false) ->
  C.rcomp cell (C.composites cell f s) c = Z.of_nat i /\
  C.fcomp cell (C.composites cell f s) c = f i c /\
  C.scomp cell (C.composites cell f s) c = s i c.
Proof.
  intros Hi Hm Hk.
  assert (Hrev : exists rest,
             rev passes = map (pair (C.to_float32 (C.py_float 1 1000))) (seq 0 7) ++ rest).
  { eexists. vm_compute. reflexivity. }
  destruct Hrev as [rest Hrev].
  pose proof (composites_last cell f s c) as E. unfold at_cell, last_eligible in E.
  rewrite Hrev in E.
  rewrite (find_in_block (eligible f s c) _ rest 7 0 i) in E;
    [ | unfold sh0 in Hi; lia | exact Hm | intros k Hk'; apply Hk; lia ].
  pose proof (f_equal (fun t => fst (fst t)) E) as Ef.
  pose proof (f_equal (fun t => snd (fst t)) E) as Es.
  pose proof (f_equal snd E) as Er.
  cbn beta iota delta [fst snd] in Ef, Es, Er.
  repeat split; assumption.
Qed.

Lemma narrowest_window_of_last_threshold_witness :
  C.rcomp unit (C.composites unit (fun _ _ => S754_zero false) (fun _ _ => S754_zero false)) tt
  = Z.of_nat 0.
Proof.
  apply (narrowest_window_of_last_threshold unit
           (fun _ _ => S754_zero false) (fun _ _ => S754_zero false) tt 0).
  - unfold sh0. lia.
  - vm_compute. reflexivity.
  - intros k Hk. lia.
Defined.

(* ================================================================== *)
(** ** From the table of reports to the convolved grids *)
(* ================================================================== *)

(** X13. The cleanup of a coded column loses nothing on empty fields and
    codes from 0 to 127: two fields with the same cleaned value are the
    same field, so that -1 stands for a missing value and for nothing
    else. *)
Theorem clean_injective (x y : option Z) :
  valid_code x -> valid_code y -> P.clean x = P.clean y -> x = y.
Proof.
  intros Vx Vy. rewrite !clean_valid by assumption.
  destruct x as [v|], y as [w|]; cbn [valid_code] in *; intros E;
    try reflexivity; try (f_equal; exact E); lia.
Qed.

Lemma clean_injective_witness :
  valid_code (Some 60) /\ valid_code None /\ P.clean (Some 60) <> P.clean None.
Proof.
  assert (V : valid_code (Some 60)) by (cbn [valid_code]; lia).
  split; [exact V|]. split; [exact I|].
  intros E. pose proof (clean_injective (Some 60) None V I E) as H. discriminate H.
Defined.

Lemma grid_total_sumZ {A : Type} (g : A -> grid) (l : list A) :
  grid_total (fun lat lon => sumZ (map (fun i => g i lat lon) l)) =
  sumZ (map (fun i => grid_total (g i)) l).
Proof.
  unfold grid_total. induction l as [|i l IH]; cbn [map sumZ fold_right].
  - rewrite (sum_upto_ext _ _ (fun _ => 0)); [apply sum_upto_zero|].
    intros lat. apply sum_upto_zero.
  - fold (sumZ (map (fun i0 => sum_upto (Z.to_nat sh3)
             (fun lat => sum_upto (Z.to_nat sh4) (fun lon => g i0 lat lon))) l)).
    rewrite <- IH, <- sum_upto_add. apply sum_upto_ext; intros lat.
    rewrite <- sum_upto_add. reflexivity.
Qed.

Lemma month_total (df : list T.report) (iyr imo : nat) (yr : Z) :
  nth_error (T.years df) iyr = Some yr -> (imo < 12)%nat ->
  grid_total (T.nreports df iyr imo) =
  Z.of_nat (length (filter (in_year_month yr (Z.of_nat imo + 1)) df)).
Proof.
  intros Hy Hm. unfold T.nreports, T.df_reports.
  rewrite (values_total df _ iyr imo yr (Z.of_nat imo + 1) Hy).
  - apply groupby_cells.
  - unfold T.months. rewrite np_arange_nth by lia. f_equal. lia.
Qed.

Lemma count_disjoint {A : Type} (p q : A -> bool) (l : list A) :
  (forall x, p x = true -> q x = true -> False) ->
  Z.of_nat (length (filter (fun x => p x || q x) l)) =
  Z.of_nat (length (filter p l)) + Z.of_nat (length (filter q l)).
Proof.
  intros H. induction l as [|x l IH]; [reflexivity|].
  rewrite !length_filter_cons, IH.
  specialize (H x). destruct (p x), (q x); cbn [orb Z.b2z]; try lia.
Qed.

Lemma months_count (df : list T.report) (yr : Z) (l : list nat) :
  NoDup l ->
  sumZ (map (fun imo => Z.of_nat (length (filter (in_year_month yr (Z.of_nat imo + 1)) df))) l) =
  Z.of_nat (length (filter (fun r => (T.YR r =? yr)
                              && existsb (fun imo => T.MO r =? Z.of_nat imo + 1) l) df)).
Proof.
  induction 1 as [|imo l Hnin Hnd IH]; cbn [map sumZ fold_right existsb].
  - rewrite (filter_ext _ (fun _ => false)) by (intros; apply andb_false_r).
    induction df; simpl; auto.
  - fold (sumZ (map (fun imo0 => Z.of_nat (length (filter
             (in_year_month yr (Z.of_nat imo0 + 1)) df))) l)).
    rewrite IH, <- count_disjoint.
    + f_equal. f_equal. apply filter_ext. intros r. unfold in_year_month.
      destruct (T.YR r =? yr); reflexivity.
    + intros r Hp Hq. unfold in_year_month in Hp.
      apply andb_prop in Hp. destruct Hp as [_ Hp]. apply Z.eqb_eq in Hp.
      apply andb_prop in Hq. destruct Hq as [_ Hq].
      apply existsb_exists in Hq. destruct Hq as [k [Hk Ek]]. apply Z.eqb_eq in Ek.
      assert (k = imo) by lia. subst k. contradiction.
Qed.

Lemma months_table (iseason : nat) :
  NoDup (nth iseason months []) /\ Forall (fun imo => (imo < 12)%nat) (nth iseason months []).
Proof.
  do 5 (destruct iseason as [|iseason];
        [split; [repeat constructor; simpl; intuition lia
                |repeat constructor; lia]|]).
  destruct iseason; split; constructor.
Qed.

(** X14. The month indices of the season table meet the months of the
    reports: summed over the grid, the seasonal total of [nreports] for
    a year of the axis is the number of reports of that year whose month
    [MO] is an index of the season plus one, so that the slice [[11, 0, 1]]
    holds the reports of December, January and February. *)
Theorem season_holds_its_months (df : list T.report) (iyr iseason : nat) (yr : Z) :
  nth_error (T.years df) iyr = Some yr ->
  grid_total (SeasonalAggregator (T.nreports df) iyr iseason) =
  Z.of_nat (length (filter (in_season yr iseason) df)).
Proof.
  intros Hy. unfold SeasonalAggregator, in_season.
  destruct (months_table iseason) as [Hnd Hlt].
  rewrite (grid_total_sumZ (fun imo => T.nreports df iyr imo)).
  rewrite <- (months_count df yr _ Hnd). f_equal.
  apply map_ext_in. intros imo Hin.
  apply month_total; [exact Hy|]. rewrite Forall_forall in Hlt. apply Hlt, Hin.
Qed.

Lemma season_holds_its_months_witness :
  nth_error (T.years two_reports) 0 = Some 1950 /\
  grid_total (SeasonalAggregator (T.nreports two_reports) 0%nat 0%nat) = 2 /\
  grid_total (SeasonalAggregator (T.nreports two_reports) 0%nat 2%nat) = 0.
Proof.
  assert (Hy : nth_error (T.years two_reports) 0 = Some 1950) by reflexivity.
  split; [exact Hy|]. split.
  - exact (season_holds_its_months two_reports 0%nat 0%nat 1950 Hy).
  - exact (season_holds_its_months two_reports 0%nat 2%nat 1950 Hy).
Defined.

Lemma sum_upto_prefix_le (k n : nat) (f : Z -> Z) :
  (forall i, 0 <= f i) -> (k <= n)%nat -> sum_upto k f <= sum_upto n f.
Proof.
  intros Hf H. replace n with (k + (n - k))%nat by lia. rewrite sum_upto_app.
  pose proof (sum_upto_nonneg (n - k) (fun i => f (i + Z.of_nat k)) (fun i => Hf _)).
  lia.
Qed.

(** A box that fits the grid holds at most the reports of the grid. *)
Lemma box_sum_le_grid_total (t : grid) (p q lat lon : Z) :
  (forall la lo, 0 <= t la lo) ->
  0 <= p -> 2 * p + 1 <= sh3 -> 0 <= q -> 2 * q + 1 <= sh4 ->
  box_sum t p q lat lon <= grid_total t.
Proof.
  intros Ht Hp Hp' Hq Hq'. unfold box_sum, grid_total.
  set (R := fun r => sum_upto (Z.to_nat sh4) (fun lon' => t r lon')).
  assert (HR : forall r, 0 <= R r) by (intros r; apply sum_upto_nonneg; intros; apply Ht).
  apply Z.le_trans with
    (sum_upto (Z.to_nat (2 * p + 1)) (fun d => R ((d + (lat - p)) mod sh3))).
  - apply sum_upto_le; intros d.
    replace (lat - p + d) with (d + (lat - p)) by lia.
    apply Z.le_trans with
      (sum_upto (Z.to_nat sh4)
         (fun e => t ((d + (lat - p)) mod sh3) ((e + (lon - q)) mod sh4))).
    + rewrite (sum_upto_ext _ _
                 (fun e => t ((d + (lat - p)) mod sh3) ((e + (lon - q)) mod sh4)))
        by (intros e; f_equal; f_equal; lia).
      apply sum_upto_prefix_le; [intros; apply Ht | lia].
    + rewrite (sum_upto_shift_mod sh4 (lon - q) (t ((d + (lat - p)) mod sh3)))
        by (unfold sh4; lia).
      apply Z.le_refl.
  - apply Z.le_trans with
      (sum_upto (Z.to_nat sh3) (fun d => R ((d + (lat - p)) mod sh3))).
    + apply sum_upto_prefix_le; [intros; apply HR | lia].
    + rewrite (sum_upto_shift_mod sh3 (lat - p) R) by (unfold sh3; lia).
      apply Z.le_refl.
Qed.

Lemma season_total_le (df : list T.report) (iyr iseason : nat) :
  grid_total (SeasonalAggregator (T.nreports df) iyr iseason) <= Z.of_nat (length df).
Proof.
  destruct (nth_error (T.years df) iyr) as [yr|] eqn:Hy.
  - destruct (months_table iseason) as [Hnd Hlt].
    unfold SeasonalAggregator.
    rewrite (grid_total_sumZ (fun imo => T.nreports df iyr imo)).
    rewrite (map_ext_in _
               (fun imo => Z.of_nat (length (filter (in_year_month yr (Z.of_nat imo + 1)) df)))).
    + rewrite (months_count df yr _ Hnd).
      pose proof (filter_length_le
                    (fun r => (T.YR r =? yr)
                              && existsb (fun imo => T.MO r =? Z.of_nat imo + 1)
                                         (nth iseason months [])) df).
      lia.
    + intros imo Hin. apply month_total; [exact Hy|].
      rewrite Forall_forall in Hlt. apply Hlt, Hin.
  - unfold SeasonalAggregator.
    rewrite (grid_total_sumZ (fun imo => T.nreports df iyr imo)).
    rewrite (map_ext _ (fun _ => 0)).
    + assert (Z0 : forall l : list nat, sumZ (map (fun _ => 0) l) = 0)
        by (intros l; induction l as [|x l IH]; [reflexivity|];
            cbn [map]; unfold sumZ in *; cbn [fold_right]; rewrite IH; reflexivity).
      rewrite Z0. lia.
    + intros imo. unfold grid_total.
      rewrite (sum_upto_ext _ _ (fun _ => 0)); [apply sum_upto_zero|].
      intros lat. rewrite (sum_upto_ext _ _ (fun _ => 0)); [apply sum_upto_zero|].
      intros lon. unfold T.nreports, T.values. rewrite Hy. reflexivity.
Qed.

(** X15. With fewer than [2^31] reports in the table, the [int32]
    accumulators never overflow: in every slice and every cell of the
    grid, [nprecip] is at most [nreports], neither is negative, and
    [nreports] is at most the number of reports. *)
Theorem no_overflow_below_2_31_reports (df : list T.report) (ls_mask : Z -> Z -> bool)
    (j iyr iseason : nat) (lat lon : Z) :
  Z.of_nat (length df) <= Int32.max_signed ->
  0 <= lat < sh3 -> 0 <= lon < sh4 ->
  0 <= Convolve.nprecip (T.nprecip df) ls_mask j iyr iseason lat lon
    <= Convolve.nreports (T.nreports df) ls_mask j iyr iseason lat lon /\
  Convolve.nreports (T.nreports df) ls_mask j iyr iseason lat lon
    <= Z.of_nat (length df).
Proof.
  intros Hlen Hlat Hlon. unfold Convolve.nprecip, Convolve.nreports.
  destruct (Nat.ltb_spec j sh0) as [Hj|Hj].
  - assert (Hnn : forall imo la lo, 0 <= T.nreports df iyr imo la lo).
    { intros. pose proof (monthly_precip_le_reports df iyr imo la lo). lia. }
    assert (Hwt : window_total (T.nreports df) j iyr iseason lat lon
                  <= Z.of_nat (length df)).
    { unfold window_total. rewrite convolve2d_box by assumption.
      destruct (half_window_bounds j Hj) as [Hp Hq].
      apply Z.le_trans with (grid_total (SeasonalAggregator (T.nreports df) iyr iseason)).
      - apply box_sum_le_grid_total; try (unfold sh3, sh4; lia).
        intros la lo. apply SeasonalAggregator_nonneg, Hnn.
      - apply season_total_le. }
    split.
    + apply convolve_grids_le; [intros; apply monthly_precip_le_reports | lia].
    + rewrite convolve_grids_at, accumulate_0 by (assumption || lia).
      destruct ((j <? sh0)%nat && (iyr <? sh1)%nat && (iseason <? sh2)%nat); [|lia].
      destruct (ls_mask lat lon); [|lia].
      assert (0 <= window_total (T.nreports df) j iyr iseason lat lon).
      { rewrite <- (window_total_zero j iyr iseason lat lon).
        apply window_total_le. intros. apply Hnn. }
      rewrite wrap_small; [lia|].
      unfold Int32.in_range, Int32.min_signed, Int32.max_signed in *. lia.
  - rewrite !convolve_grids_at.
    destruct (Nat.ltb_spec j sh0); [lia|]. cbn [andb]. lia.
Qed.

Lemma no_overflow_below_2_31_reports_witness :
  Z.of_nat (length two_reports) <= Int32.max_signed /\
  Convolve.nprecip (T.nprecip two_reports) (fun _ _ => true) 6%nat 0%nat 0%nat 130 350
  <= Convolve.nreports (T.nreports two_reports) (fun _ _ => true) 6%nat 0%nat 0%nat 130 350.
Proof.
  assert (H : Z.of_nat (length two_reports) <= Int32.max_signed) by (vm_compute; discriminate).
  split; [exact H|].
  apply (no_overflow_below_2_31_reports two_reports (fun _ _ => true)
           6%nat 0%nat 0%nat 130 350 H); unfold sh3, sh4; lia.
Defined.
